(** * Manufacturing Quote Risk Analyzer: the Monte Carlo cost engine of [app.py]

    The script reads seven job parameters from sidebar widgets and, when the
    "Run Risk Analysis" button is pressed, draws [n_simulations] material
    costs and labor durations from the process-wide NumPy generator, pushes
    them through the pricing formula and reports the mean and five
    percentiles of the resulting quotes.

    Numbers: Python ints are [Z]; NumPy's float64 arrays are lists of exact
    rationals [Q], so every arithmetic step is the one the script performs
    but carried out without rounding.  Equalities between rationals are
    stated with [==] unless the two sides are built by the very same
    operations, in which case plain [=] is used.  Where rounding decides a
    question, the pricing of one trial is given a second time in IEEE 754
    binary64 ([total_quote_float64]).  Numbers no float64 holds (a Python
    int beyond its range, which NumPy refuses with [OverflowError]) are
    outside this reading; the widgets hand over none.

    Inputs: the seven values come from sidebar widgets, each declared with
    an interval and an initial value.  A widget passes on what the user
    enters only inside its interval ([sidebar], [handed_to_script]).

    Randomness: [np.random.normal] is the legacy [RandomState] method.  It
    refuses a negative scale with [ValueError] before drawing, and otherwise
    returns [loc + scale * g] for successive standard deviates [g] of the
    generator.  The generator is a parameter of the development: a state
    type and a step function yielding the next deviate.  [np.percentile] is
    NumPy's default "linear" method. *)

From Stdlib Require Import String Ascii DecimalString DecimalPos DecimalN.
From Stdlib Require Import QArith Qround ZArith List Lia Lqa Bool.
From Stdlib Require Import Sorted Permutation SetoidList SpecFloat.
Import ListNotations.
Open Scope Q_scope.

(** ** Sidebar widgets (app.py, lines 14-24) *)

Module Widget.

(** [st.sidebar.number_input] and [st.sidebar.slider]: a label, the
    permitted interval and the initial value. *)
Record t := mk {
  label : string;
  min_value : Q;
  max_value : Q;
  value : Q
}.

Definition permits (w : t) (v : Q) : bool :=
  Qle_bool (min_value w) v && Qle_bool v (max_value w).

End Widget.

Definition material_cost_input : Widget.t :=
  Widget.mk "Base Material Cost ($)" 100 50000 3500.
Definition material_uncertainty_slider : Widget.t :=
  Widget.mk "Material Cost Uncertainty (%)" 5 40 12.
Definition machining_hours_input : Widget.t :=
  Widget.mk "Machining Time (hours)" 1.0 500.0 35.0.
Definition labor_uncertainty_slider : Widget.t :=
  Widget.mk "Labor Time Uncertainty (%)" 10 50 20.
Definition labor_rate_input : Widget.t :=
  Widget.mk "Labor Rate ($/hr)" 30 200 75.
Definition overhead_multiplier_input : Widget.t :=
  Widget.mk "Overhead Multiplier" 1.0 3.0 1.35.
Definition profit_margin_input : Widget.t :=
  Widget.mk "Profit Margin Multiplier" 1.0 2.0 1.15.

(** The values the widgets hand to the script.  Widgets declared with
    integer bounds return Python ints, the others floats. *)
Record job_parameters := mk_parameters {
  material_cost : Z;
  material_uncertainty : Z;
  machining_hours : Q;
  labor_uncertainty : Z;
  labor_rate : Z;
  overhead_multiplier : Q;
  profit_margin : Q
}.

Definition default_parameters : job_parameters :=
  mk_parameters 3500 12 35.0 20 75 1.35 1.15.

(** All seven values lie in the interval their widget declares. *)
Definition within_declared_ranges (p : job_parameters) : bool :=
  Widget.permits material_cost_input (inject_Z (material_cost p))
  && Widget.permits material_uncertainty_slider (inject_Z (material_uncertainty p))
  && Widget.permits machining_hours_input (machining_hours p)
  && Widget.permits labor_uncertainty_slider (inject_Z (labor_uncertainty p))
  && Widget.permits labor_rate_input (inject_Z (labor_rate p))
  && Widget.permits overhead_multiplier_input (overhead_multiplier p)
  && Widget.permits profit_margin_input (profit_margin p).

(** What the user does to one widget: types a number into an input or
    drags a slider.  The widgets declared with integer bounds take whole
    numbers. *)
Inductive entry : Type :=
| EnterMaterialCost (v : Z)
| EnterMaterialUncertainty (v : Z)
| EnterMachiningHours (v : Q)
| EnterLaborUncertainty (v : Z)
| EnterLaborRate (v : Z)
| EnterOverheadMultiplier (v : Q)
| EnterProfitMargin (v : Q).

(** The values the widgets hand to the next run of the script when they
    held [p] and the user makes the entry [e].  A widget takes a number
    inside its [min_value] .. [max_value] and keeps the value it holds
    otherwise: Streamlit does not pass on a number outside the interval. *)
Definition sidebar (p : job_parameters) (e : entry) : job_parameters :=
  match e with
  | EnterMaterialCost v =>
      if Widget.permits material_cost_input (inject_Z v)
      then mk_parameters v (material_uncertainty p) (machining_hours p)
             (labor_uncertainty p) (labor_rate p) (overhead_multiplier p)
             (profit_margin p)
      else p
  | EnterMaterialUncertainty v =>
      if Widget.permits material_uncertainty_slider (inject_Z v)
      then mk_parameters (material_cost p) v (machining_hours p)
             (labor_uncertainty p) (labor_rate p) (overhead_multiplier p)
             (profit_margin p)
      else p
  | EnterMachiningHours v =>
      if Widget.permits machining_hours_input v
      then mk_parameters (material_cost p) (material_uncertainty p) v
             (labor_uncertainty p) (labor_rate p) (overhead_multiplier p)
             (profit_margin p)
      else p
  | EnterLaborUncertainty v =>
      if Widget.permits labor_uncertainty_slider (inject_Z v)
      then mk_parameters (material_cost p) (material_uncertainty p)
             (machining_hours p) v (labor_rate p) (overhead_multiplier p)
             (profit_margin p)
      else p
  | EnterLaborRate v =>
      if Widget.permits labor_rate_input (inject_Z v)
      then mk_parameters (material_cost p) (material_uncertainty p)
             (machining_hours p) (labor_uncertainty p) v
             (overhead_multiplier p) (profit_margin p)
      else p
  | EnterOverheadMultiplier v =>
      if Widget.permits overhead_multiplier_input v
      then mk_parameters (material_cost p) (material_uncertainty p)
             (machining_hours p) (labor_uncertainty p) (labor_rate p) v
             (profit_margin p)
      else p
  | EnterProfitMargin v =>
      if Widget.permits profit_margin_input v
      then mk_parameters (material_cost p) (material_uncertainty p)
             (machining_hours p) (labor_uncertainty p) (labor_rate p)
             (overhead_multiplier p) v
      else p
  end.

(** The values the script receives after the user's entries, made one
    after the other on a freshly opened page. *)
Definition handed_to_script (entries : list entry) : job_parameters :=
  fold_left sidebar entries default_parameters.

(** app.py, line 26 *)
#[warnings="-abstract-large-number"] Definition n_simulations : nat := 10000.

(** ** Array operations *)

(** Elementwise [a + b] of two arrays of one shape. *)
Fixpoint array_add (a b : list Q) : list Q :=
  match a, b with
  | x :: a', y :: b' => (x + y) :: array_add a' b'
  | _, _ => []
  end.

(** [a * c] for an array [a] and a scalar [c]. *)
Definition array_scale (a : list Q) (c : Q) : list Q :=
  map (fun x => x * c) a.

Definition array_sum (a : list Q) : Q := fold_right Qplus 0 a.

(** [a.mean()] *)
Definition array_mean (a : list Q) : Q :=
  array_sum a / inject_Z (Z.of_nat (length a)).

(** [a[i]] with Python's reading of negative indexes.  Every index used
    below is within bounds, where Python would raise otherwise. *)
Definition getitem (a : list Q) (i : Z) : Q :=
  if (i <? 0)%Z then nth (Z.to_nat (Z.of_nat (length a) + i)) a 0
  else nth (Z.to_nat i) a 0.

(** ** [np.percentile], default method ("linear") *)

Fixpoint insert (x : Q) (l : list Q) : list Q :=
  match l with
  | [] => [x]
  | y :: l' => if Qle_bool x y then x :: l else y :: insert x l'
  end.

(** NumPy partitions the array around the two indexes it needs, which puts
    there the elements a full ascending sort would put there. *)
Definition sort (l : list Q) : list Q := fold_right insert [] l.

Definition Qlt_bool (x y : Q) : bool := negb (Qle_bool y x).

Definition get_virtual_index (n : nat) (quantile : Q) : Q :=
  (inject_Z (Z.of_nat n) - 1) * quantile.

(** [_get_indexes]: the floor of the virtual index and its successor,
    replaced by the last position at or beyond the upper end and by the
    first position below the lower end. *)
Definition get_indexes (virtual_index : Q) (values_count : nat) : Z * Z :=
  let previous_index := Qfloor virtual_index in
  let next_index := (previous_index + 1)%Z in
  if Qlt_bool virtual_index 0 then (0%Z, 0%Z)
  else if Qle_bool (inject_Z (Z.of_nat values_count) - 1) virtual_index
       then ((-1)%Z, (-1)%Z)
       else (previous_index, next_index).

Definition get_gamma (virtual_index : Q) (previous_index : Z) : Q :=
  virtual_index - inject_Z previous_index.

(** [_lerp]: [a + (b - a) * t], recomputed from the other end when
    [t >= 0.5]. *)
Definition lerp (a b t : Q) : Q :=
  let diff_b_a := b - a in
  if Qle_bool 0.5 t then b - diff_b_a * (1 - t) else a + diff_b_a * t.

Definition np_quantile (arr : list Q) (quantile : Q) : Q :=
  let values_count := length arr in
  let virtual_index := get_virtual_index values_count quantile in
  let '(previous_index, next_index) := get_indexes virtual_index values_count in
  let arr := sort arr in
  let previous := getitem arr previous_index in
  let next := getitem arr next_index in
  let gamma := get_gamma virtual_index previous_index in
  lerp previous next gamma.

Definition np_percentile (a : list Q) (q : Q) : Q :=
  np_quantile a (q / 100).

(** The percentile as the specification words it: sort the samples and
    interpolate linearly between the two order statistics around position
    [p / 100 * (n - 1)].  Sorting is said without reference to the code:
    [order_statistics] is the samples rearranged in ascending order. *)
Definition ascending (samples order_statistics : list Q) : Prop :=
  Permutation order_statistics samples
  /\ StronglySorted Qle order_statistics.

Definition spec_percentile (order_statistics : list Q) (p : Q) : Q :=
  let n := inject_Z (Z.of_nat (length order_statistics)) in
  let position := p / 100 * (n - 1) in
  let k := Qfloor position in
  let lower := nth (Z.to_nat k) order_statistics 0 in
  let upper := nth (S (Z.to_nat k)) order_statistics 0 in
  lower + (position - inject_Z k) * (upper - lower).

(** ** The script *)

(** What one button press computes and shows: the arrays of the spinner
    block (lines 33-43), the four headline figures (lines 45-48) and the
    "Quote Price" column of the statistics table before formatting
    (lines 84-90). *)
Record analysis := mk_analysis {
  material_total : list Q;
  labor_hours_sim : list Q;
  labor_cost : list Q;
  direct_costs : list Q;
  total_quote : list Q;
  mean_cost : Q;
  median_cost : Q;
  p75 : Q;
  p90 : Q;
  stats_df : list Q
}.

(** Lines 33 and 37: the scale handed to each normal draw. *)
Definition mat_std (p : job_parameters) : Q :=
  inject_Z (material_cost p) * (inject_Z (material_uncertainty p) / 100).

Definition labor_std (p : job_parameters) : Q :=
  machining_hours p * (inject_Z (labor_uncertainty p) / 100).

(** What a NumPy call raises. *)
Inductive exception : Type :=
| ValueError (message : string).

Section Script.

(** The process-wide generator behind [np.random]: its state and the
    function producing the next standard normal deviate. *)
Variable rng_state : Type.
Variable legacy_gauss : rng_state -> Q * rng_state.

(** Computations that read and advance the generator and may raise. *)
Definition RNG (A : Type) : Type := rng_state -> (exception + A) * rng_state.

Definition ret {A} (x : A) : RNG A := fun s => (inr x, s).

Definition raise {A} (e : exception) : RNG A := fun s => (inl e, s).

Definition bind {A B} (m : RNG A) (f : A -> RNG B) : RNG B :=
  fun s =>
    match m s with
    | (inr x, s') => f x s'
    | (inl e, s') => (inl e, s')
    end.

Notation "x <- m ;; k" := (bind m (fun x => k))
  (at level 61, m at next level, right associativity).

(** [size] successive deviates, in the order they are generated. *)
Fixpoint standard_normal (size : nat) (s : rng_state) : list Q * rng_state :=
  match size with
  | O => ([], s)
  | S k =>
      let '(g, s1) := legacy_gauss s in
      let '(gs, s2) := standard_normal k s1 in
      (g :: gs, s2)
  end.

(** The deviates the next [n] draws hand out, and the state they leave. *)
Definition deviates (n : nat) (s : rng_state) : list Q :=
  fst (standard_normal n s).

Definition advance (n : nat) (s : rng_state) : rng_state :=
  snd (standard_normal n s).

(** [np.random.normal(loc, scale, size)].  NumPy checks the scale before it
    draws anything and refuses a negative one. *)
Definition np_random_normal (loc scale : Q) (size : nat) : RNG (list Q) :=
  if Qlt_bool scale 0 then raise (ValueError "scale < 0")
  else fun s =>
         let '(gs, s') := standard_normal size s in
         (inr (map (fun g => loc + scale * g) gs), s').

(** The body of the [if st.sidebar.button(...)] branch, lines 30-92. *)
Definition risk_analysis (p : job_parameters) : RNG analysis :=
  (* Material simulation *)
  material_total <-
    np_random_normal (inject_Z (material_cost p)) (mat_std p) n_simulations ;;
  (* Labor simulation *)
  labor_hours_sim <-
    np_random_normal (machining_hours p) (labor_std p) n_simulations ;;
  let labor_cost := array_scale labor_hours_sim (inject_Z (labor_rate p)) in
  (* Total cost *)
  let direct_costs := array_add material_total labor_cost in
  let total_quote :=
    array_scale (array_scale direct_costs (overhead_multiplier p))
                (profit_margin p) in
  let mean_cost := array_mean total_quote in
  let median_cost := np_percentile total_quote 50 in
  let p75 := np_percentile total_quote 75 in
  let p90 := np_percentile total_quote 90 in
  (* Statistics table *)
  let stats_df :=
    [ np_percentile total_quote 10;
      np_percentile total_quote 25;
      median_cost;
      p75;
      p90 ] in
  ret (mk_analysis material_total labor_hours_sim labor_cost direct_costs
                   total_quote mean_cost median_cost p75 p90 stats_df).

(** One execution of the script: the analysis when the button was
    pressed, the usage notice otherwise. *)
Definition script (button : bool) (p : job_parameters)
  : RNG (option analysis) :=
  if button then a <- risk_analysis p ;; ret (Some a)
  else ret None.

(** Two presses of the button in one session, the widgets untouched in
    between.  The script neither seeds nor replaces the process-wide
    generator, so the second run starts where the first left it. *)
Definition two_invocations (p : job_parameters) : RNG (analysis * analysis) :=
  first <- risk_analysis p ;;
  second <- risk_analysis p ;;
  ret (first, second).

End Script.

Arguments ret {rng_state A} x s.
Arguments raise {rng_state A} e s.
Arguments bind {rng_state A B} m f s.
Arguments standard_normal {rng_state} legacy_gauss size s.
Arguments deviates {rng_state} legacy_gauss n s.
Arguments advance {rng_state} legacy_gauss n s.
Arguments np_random_normal {rng_state} legacy_gauss loc scale size s.
Arguments risk_analysis {rng_state} legacy_gauss p s.
Arguments script {rng_state} legacy_gauss button p s.
Arguments two_invocations {rng_state} legacy_gauss p s.

(** NumPy accepts both scales of the analysis: neither is negative. *)
Definition draws_accepted (p : job_parameters) : bool :=
  negb (Qlt_bool (mat_std p) 0) && negb (Qlt_bool (labor_std p) 0).

(** The parameters [p] with the two markup factors replaced. *)
Definition with_markup (p : job_parameters) (overhead profit : Q)
  : job_parameters :=
  mk_parameters (material_cost p) (material_uncertainty p)
    (machining_hours p) (labor_uncertainty p) (labor_rate p)
    overhead profit.

(** [x'] is [x] multiplied by [k]. *)
Definition scaled (k x x' : Q) : Prop := x' == k * x.

(** ** The pricing with float64 rounding *)

(** IEEE 754 binary64, the format of Python's [float] and of NumPy's
    [float64]: each operation returns the representable number nearest to
    the exact result, a tie going to the even mantissa. *)
Module Binary64.

Definition prec : Z := 53.
Definition emax : Z := 1024.

(** A Python int converted to float. *)
Definition of_Z (z : Z) : spec_float := binary_normalize prec emax z 0 false.

Definition add : spec_float -> spec_float -> spec_float := SFadd prec emax.
Definition mul : spec_float -> spec_float -> spec_float := SFmul prec emax.
Definition div : spec_float -> spec_float -> spec_float := SFdiv prec emax.

(** The decimal literal [n / d], [d] a power of ten: the float nearest to
    it, as Python reads [1.15] (115 / 100). *)
Definition literal (n d : Z) : spec_float := div (of_Z n) (of_Z d).

(** The exact value of a finite float. *)
Definition to_Q (x : spec_float) : Q :=
  match x with
  | S754_finite sign m e =>
      (if sign then - inject_Z (Zpos m) else inject_Z (Zpos m)) * Qpower 2 e
  | _ => 0
  end.

End Binary64.

(** Lines 39-43 at one trial, as NumPy computes them: the labor rate
    converted to float, and every product and sum rounded. *)
Definition total_quote_float64 (material_total labor_hours_sim : spec_float)
    (labor_rate : Z) (overhead_multiplier profit_margin : spec_float)
  : spec_float :=
  let labor_cost := Binary64.mul labor_hours_sim (Binary64.of_Z labor_rate) in
  let direct_costs := Binary64.add material_total labor_cost in
  Binary64.mul (Binary64.mul direct_costs overhead_multiplier) profit_margin.

(** ** Inputs for worked examples *)

(** A small generator: the state counts the deviates handed out so far,
    and the deviates cycle through -4, -3, ..., 3. *)
Definition counting_gauss (k : Z) : Q * Z :=
  (inject_Z (k mod 8) - 4, (k + 1)%Z).

(** In range, with the widest uncertainties the sliders allow. *)
Definition volatile_parameters : job_parameters :=
  mk_parameters 3500 40 35.0 50 75 1.35 1.15.

(** Another small generator, whose deviates cycle through -3, ..., 3. *)
Definition cycling_gauss (k : Z) : Q * Z :=
  (inject_Z (k mod 7) - 3, (k + 1)%Z).

(** Negative machining hours: the labor scale is negative. *)
Definition negative_hours_parameters : job_parameters :=
  mk_parameters 3500 12 (-35.0) 20 75 1.35 1.15.

(** ** What the page shows (app.py, lines 50-92) *)

(** The precision [.0f]: the nearest integer to the exact value, a tie
    going to the even neighbour. *)
Definition round_half_even (x : Q) : Z :=
  let f := Qfloor x in
  match Qcompare (x - inject_Z f) (1 # 2) with
  | Lt => f
  | Gt => (f + 1)%Z
  | Eq => if Z.even f then f else (f + 1)%Z
  end.

(** The [,] option, on the digits taken from the right: a comma after
    every third digit that still has a digit to its left. *)
Fixpoint group_thousands_rev (ds : list ascii) : list ascii :=
  match ds with
  | d1 :: d2 :: d3 :: rest =>
      match rest with
      | [] => ds
      | _ :: _ => d1 :: d2 :: d3 :: ","%char :: group_thousands_rev rest
      end
  | _ => ds
  end.

Definition group_thousands (digits : string) : string :=
  string_of_list_ascii
    (rev (group_thousands_rev (rev (list_ascii_of_string digits)))).

(** A natural number in decimal. *)
Definition decimal (n : N) : string := NilZero.string_of_uint (N.to_uint n).

(** [format(x, ",.0f")]: sign, then the grouped digits of the rounded
    magnitude.  A negative value keeps its sign when it rounds to zero. *)
Definition format_comma_0f (x : Q) : string :=
  let digits := decimal (Z.abs_N (round_half_even x)) in
  ((if Qlt_bool x 0 then "-" else "") ++ group_thousands digits)%string.

(** [f"${x:,.0f}"] and [f"+${x:,.0f}"] *)
Definition dollars (x : Q) : string := ("$" ++ format_comma_0f x)%string.

Definition plus_dollars (x : Q) : string :=
  ("+$" ++ format_comma_0f x)%string.

(** [st.metric(label, value, delta=...)] *)
Record metric := mk_metric {
  metric_label : string;
  metric_value : string;
  metric_delta : option string
}.

(** Lines 55-62: the four headline figures. *)
Definition key_results (a : analysis) : list metric :=
  [ mk_metric "Expected Cost" (dollars (mean_cost a)) None;
    mk_metric "Median (50%)" (dollars (median_cost a)) None;
    mk_metric "Conservative (75%)" (dollars (p75 a))
      (Some (plus_dollars (p75 a - median_cost a)));
    mk_metric "High Confidence (90%)" (dollars (p90 a))
      (Some (plus_dollars (p90 a - median_cost a))) ].

(** A pandas Series of counts: one row per index value. *)
Definition counts := list (Q * nat).

Fixpoint bump (x : Q) (rows : counts) : counts :=
  match rows with
  | [] => [(x, 1%nat)]
  | (y, c) :: rows' =>
      if Qeq_bool x y then (y, S c) :: rows' else (y, c) :: bump x rows'
  end.

(** The distinct values in order of first appearance, each with the
    number of times it occurs. *)
Definition tally (values : list Q) : counts :=
  fold_left (fun rows x => bump x rows) values [].

Fixpoint insert_by_count (r : Q * nat) (rows : counts) : counts :=
  match rows with
  | [] => [r]
  | r' :: rows' =>
      if (snd r' <=? snd r)%nat then r :: rows
      else r' :: insert_by_count r rows'
  end.

(** [Series.value_counts()]: most frequent first. *)
Definition value_counts (values : list Q) : counts :=
  fold_right insert_by_count [] (tally values).

Fixpoint insert_by_index (r : Q * nat) (rows : counts) : counts :=
  match rows with
  | [] => [r]
  | r' :: rows' =>
      if Qle_bool (fst r) (fst r') then r :: rows
      else r' :: insert_by_index r rows'
  end.

(** [Series.sort_index()]: ascending index. *)
Definition sort_index (rows : counts) : counts :=
  fold_right insert_by_index [] rows.

(** Lines 67-68: the data handed to [st.bar_chart]. *)
Definition cost_distribution (a : analysis) : counts :=
  sort_index (value_counts (total_quote a)).

(** How many of the values equal [x]. *)
Definition occurrences (x : Q) (values : list Q) : nat :=
  length (filter (Qeq_bool x) values).

(** The sum of a Series of counts. *)
Definition total_count (rows : counts) : nat :=
  fold_right (fun r acc => (snd r + acc)%nat) 0%nat rows.

(** The count recorded under index [y], over all rows carrying it. *)
Definition count_of (y : Q) (rows : counts) : nat :=
  fold_right (fun r acc => if Qeq_bool y (fst r) then (snd r + acc)%nat
                           else acc) 0%nat rows.

(** Two rows with different index values; a row whose index is smaller. *)
Definition other_index (r r' : Q * nat) : Prop := ~ fst r == fst r'.

Definition lt_index (r r' : Q * nat) : Prop := fst r < fst r'.

Definition newline : string := String "010" EmptyString.

(** Line 75 *)
Definition competitive_quote (a : analysis) : string :=
  ("**🎯 COMPETITIVE QUOTE**" ++ newline ++ newline
   ++ "### " ++ dollars (median_cost a) ++ newline ++ newline
   ++ "- 50% confidence level" ++ newline
   ++ "- Use for: Competitive bidding" ++ newline
   ++ "- Risk: 50/50 chance of overrun")%string.

(** Line 78 *)
Definition conservative_quote (a : analysis) : string :=
  ("**✅ CONSERVATIVE QUOTE**" ++ newline ++ newline
   ++ "### " ++ dollars (p75 a) ++ newline ++ newline
   ++ "- 75% confidence level" ++ newline
   ++ "- Use for: New customers, complex jobs" ++ newline
   ++ "- Risk premium: " ++ dollars (p75 a - median_cost a))%string.

(** Lines 82-91: the two columns of the statistics table. *)
Definition detailed_statistics (a : analysis) : list (string * string) :=
  combine ["10th"; "25th"; "50th (Median)"; "75th"; "90th"]%string
          (map dollars (stats_df a)).

(** Reading a displayed amount back: the integer written by the digits,
    commas skipped, negated after a minus sign. *)
Definition drop_commas (s : string) : string :=
  string_of_list_ascii
    (filter (fun c => negb (Ascii.eqb c ","%char)) (list_ascii_of_string s)).

Definition read_magnitude (s : string) : option Z :=
  option_map (fun d => Z.of_N (N.of_uint d))
             (NilZero.uint_of_string (drop_commas s)).

Definition read_comma_0f (s : string) : option Z :=
  match s with
  | String c s' =>
      if Ascii.eqb c "-"%char then option_map Z.opp (read_magnitude s')
      else read_magnitude s
  | EmptyString => None
  end.

Definition read_dollars (s : string) : option Z :=
  match s with
  | String c s' => if Ascii.eqb c "$"%char then read_comma_0f s' else None
  | EmptyString => None
  end.

Definition read_plus_dollars (s : string) : option Z :=
  match s with
  | String c s' => if Ascii.eqb c "+"%char then read_dollars s' else None
  | EmptyString => None
  end.

(** The ten decimal digits. *)
Definition is_digit (c : ascii) : bool :=
  (48 <=? nat_of_ascii c)%nat && (nat_of_ascii c <=? 57)%nat.

(** * Properties *)

(** ** The percentile on small arrays *)

Example np_percentile_median : np_percentile [3; 1; 4; 2] 50 == 2.5.
Proof. reflexivity. Qed.

Example np_percentile_quartile : np_percentile [3; 1; 4; 2] 25 == 1.75.
Proof. reflexivity. Qed.

Example np_percentile_between_two : np_percentile [20; 10] 90 == 19.
Proof. reflexivity. Qed.

Example np_percentile_maximum : np_percentile [20; 10] 100 == 20.
Proof. reflexivity. Qed.

Example np_percentile_singleton : np_percentile [7] 75 == 7.
Proof. reflexivity. Qed.

Example spec_percentile_quartile : spec_percentile [1; 2; 3; 4] 25 == 1.75.
Proof. reflexivity. Qed.

Example default_parameters_in_range :
  within_declared_ranges default_parameters = true.
Proof. reflexivity. Qed.


(** ** Arrays *)

Lemma array_scale_length (a : list Q) (c : Q) :
  length (array_scale a c) = length a.
Proof. apply length_map. Qed.

Lemma array_add_length_min (a b : list Q) :
  length (array_add a b) = Nat.min (length a) (length b).
Proof.
  revert b; induction a as [|x a IH]; intros [|y b]; simpl; auto.
Qed.

Lemma array_add_length (a b : list Q) :
  length a = length b -> length (array_add a b) = length a.
Proof. intros E. rewrite array_add_length_min. lia. Qed.

Lemma nth_array_scale (a : list Q) (c : Q) (i : nat) :
  (i < length a)%nat -> nth i (array_scale a c) 0 = nth i a 0 * c.
Proof.
  intros Hi. unfold array_scale.
  rewrite (nth_indep _ 0 (0 * c)) by (rewrite length_map; exact Hi).
  apply (map_nth (fun x => x * c)).
Qed.

Lemma nth_array_add (a b : list Q) (i : nat) :
  (i < length a)%nat -> (i < length b)%nat ->
  nth i (array_add a b) 0 = nth i a 0 + nth i b 0.
Proof.
  revert b i; induction a as [|x a IH]; intros [|y b] [|i] Ha Hb;
    simpl in *; try lia; auto.
  apply IH; lia.
Qed.

Lemma app_eq_length {A : Type} (a b c d : list A) :
  length a = length c -> a ++ b = c ++ d -> a = c /\ b = d.
Proof.
  revert c; induction a as [|x a IH]; intros [|y c] Hl H; simpl in *;
    try discriminate; auto.
  injection H as -> H. injection Hl as Hl.
  destruct (IH c Hl H) as [-> ->]. auto.
Qed.

(** ** The generator *)

Section Generator.

Context {rng_state : Type}.
Variable legacy_gauss : rng_state -> Q * rng_state.

Lemma standard_normal_S (n : nat) (s : rng_state) :
  standard_normal legacy_gauss (S n) s =
  (fst (legacy_gauss s) :: deviates legacy_gauss n (snd (legacy_gauss s)),
   advance legacy_gauss n (snd (legacy_gauss s))).
Proof.
  unfold deviates, advance. simpl.
  destruct (legacy_gauss s) as [g s1]; simpl.
  destruct (standard_normal legacy_gauss n s1); reflexivity.
Qed.

Lemma deviates_S (n : nat) (s : rng_state) :
  deviates legacy_gauss (S n) s =
  fst (legacy_gauss s) :: deviates legacy_gauss n (snd (legacy_gauss s)).
Proof. unfold deviates at 1. now rewrite standard_normal_S. Qed.

Lemma advance_S (n : nat) (s : rng_state) :
  advance legacy_gauss (S n) s = advance legacy_gauss n (snd (legacy_gauss s)).
Proof. unfold advance at 1. now rewrite standard_normal_S. Qed.

Lemma deviates_length (n : nat) (s : rng_state) :
  length (deviates legacy_gauss n s) = n.
Proof.
  revert s; induction n as [|n IH]; intros s.
  - reflexivity.
  - rewrite deviates_S; simpl. now rewrite IH.
Qed.

(** Drawing [n] and then [m] deviates is drawing [n + m] at once. *)
Lemma deviates_app (n m : nat) (s : rng_state) :
  deviates legacy_gauss (n + m) s =
  deviates legacy_gauss n s
    ++ deviates legacy_gauss m (advance legacy_gauss n s).
Proof.
  revert s; induction n as [|n IH]; intros s.
  - reflexivity.
  - change (S n + m)%nat with (S (n + m)).
    rewrite !deviates_S, advance_S, IH. reflexivity.
Qed.

Lemma advance_app (n m : nat) (s : rng_state) :
  advance legacy_gauss (n + m) s =
  advance legacy_gauss m (advance legacy_gauss n s).
Proof.
  revert s; induction n as [|n IH]; intros s.
  - reflexivity.
  - change (S n + m)%nat with (S (n + m)).
    rewrite !advance_S, IH. reflexivity.
Qed.

(** The [i]-th deviate of a draw is the one the generator hands out after
    advancing [i] times. *)
Lemma deviates_nth (n i : nat) (s : rng_state) :
  (i < n)%nat ->
  nth i (deviates legacy_gauss n s) 0
  = fst (legacy_gauss (advance legacy_gauss i s)).
Proof.
  revert i s; induction n as [|n IH]; intros i s Hi; [lia|].
  rewrite deviates_S. destruct i as [|i]; [reflexivity|].
  rewrite advance_S. simpl nth. apply IH. lia.
Qed.

Lemma Qlt_bool_false (x y : Q) : Qlt_bool x y = false <-> y <= x.
Proof.
  unfold Qlt_bool. rewrite negb_false_iff. apply Qle_bool_iff.
Qed.

Lemma Qlt_bool_true (x y : Q) : Qlt_bool x y = true <-> x < y.
Proof.
  unfold Qlt_bool. rewrite negb_true_iff. split; intros H.
  - apply Qnot_le_lt. intros Hle. apply Qle_bool_iff in Hle. congruence.
  - destruct (Qle_bool y x) eqn:E; auto.
    apply Qle_bool_iff in E. exfalso. apply (Qlt_not_le _ _ H E).
Qed.

(** An accepted draw: location plus scale times each deviate. *)
Lemma np_random_normal_eq (loc scale : Q) (n : nat) (s : rng_state) :
  0 <= scale ->
  np_random_normal legacy_gauss loc scale n s =
  (inr (map (fun g => loc + scale * g) (deviates legacy_gauss n s)),
   advance legacy_gauss n s).
Proof.
  intros H. apply Qlt_bool_false in H.
  unfold np_random_normal, deviates, advance. rewrite H.
  now destruct (standard_normal legacy_gauss n s).
Qed.

(** A refused draw leaves the generator untouched. *)
Lemma np_random_normal_raises (loc scale : Q) (n : nat) (s : rng_state) :
  scale < 0 ->
  np_random_normal legacy_gauss loc scale n s
  = (inl (ValueError "scale < 0"), s).
Proof.
  intros H. apply Qlt_bool_true in H.
  unfold np_random_normal. now rewrite H.
Qed.

Lemma draws_accepted_iff (p : job_parameters) :
  draws_accepted p = true <-> 0 <= mat_std p /\ 0 <= labor_std p.
Proof.
  unfold draws_accepted.
  now rewrite andb_true_iff, !negb_true_iff, !Qlt_bool_false.
Qed.

(** What the widgets allow, NumPy accepts. *)
Lemma declared_ranges_accepted (p : job_parameters) :
  within_declared_ranges p = true -> draws_accepted p = true.
Proof.
  unfold within_declared_ranges, Widget.permits.
  rewrite !andb_true_iff, !Qle_bool_iff, draws_accepted_iff.
  cbn [Widget.min_value Widget.max_value material_cost_input
       material_uncertainty_slider machining_hours_input
       labor_uncertainty_slider].
  intros [[[[[[[Hc _] [Hu _]] [Hh _]] [Hl _]] _] _] _].
  unfold mat_std, labor_std, Qdiv. split.
  - apply Qmult_le_0_compat; [lra|].
    apply Qmult_le_0_compat; [lra | discriminate].
  - apply Qmult_le_0_compat; [lra|].
    apply Qmult_le_0_compat; [lra | discriminate].
Qed.

(** The arrays and figures of an analysis that NumPy accepts, spelled out
    from the deviates of its two draws. *)
Lemma risk_analysis_eq (p : job_parameters) (s : rng_state) :
  draws_accepted p = true ->
  let s1 := advance legacy_gauss n_simulations s in
  let material :=
    map (fun g => inject_Z (material_cost p) + mat_std p * g)
        (deviates legacy_gauss n_simulations s) in
  let hours :=
    map (fun g => machining_hours p + labor_std p * g)
        (deviates legacy_gauss n_simulations s1) in
  let cost := array_scale hours (inject_Z (labor_rate p)) in
  let direct := array_add material cost in
  let total :=
    array_scale (array_scale direct (overhead_multiplier p)) (profit_margin p) in
  risk_analysis legacy_gauss p s =
  (inr (mk_analysis material hours cost direct total
          (array_mean total) (np_percentile total 50) (np_percentile total 75)
          (np_percentile total 90)
          [np_percentile total 10; np_percentile total 25;
           np_percentile total 50; np_percentile total 75;
           np_percentile total 90]),
   advance legacy_gauss n_simulations s1).
Proof.
  intros Hp. apply draws_accepted_iff in Hp. destruct Hp as [Hm Hl].
  cbv zeta. unfold risk_analysis, bind.
  rewrite (np_random_normal_eq _ _ _ _ Hm).
  rewrite (np_random_normal_eq _ _ _ _ Hl).
  reflexivity.
Qed.

(** A negative material scale is refused before anything is drawn. *)
Lemma risk_analysis_raises_material (p : job_parameters) (s : rng_state) :
  mat_std p < 0 ->
  risk_analysis legacy_gauss p s = (inl (ValueError "scale < 0"), s).
Proof.
  intros H. unfold risk_analysis, bind.
  now rewrite (np_random_normal_raises _ _ _ _ H).
Qed.

(** A negative labor scale is refused after the material draw has already
    consumed its deviates. *)
Lemma risk_analysis_raises_labor (p : job_parameters) (s : rng_state) :
  0 <= mat_std p -> labor_std p < 0 ->
  risk_analysis legacy_gauss p s =
  (inl (ValueError "scale < 0"), advance legacy_gauss n_simulations s).
Proof.
  intros Hm Hl. unfold risk_analysis, bind.
  rewrite (np_random_normal_eq _ _ _ _ Hm).
  now rewrite (np_random_normal_raises _ _ _ _ Hl).
Qed.

End Generator.

(** ** Sorting *)

Lemma Qle_bool_false (x y : Q) : Qle_bool x y = false <-> y < x.
Proof.
  split; intros H.
  - apply Qnot_le_lt. intros Hle. apply Qle_bool_iff in Hle. congruence.
  - destruct (Qle_bool x y) eqn:E; auto.
    apply Qle_bool_iff in E. exfalso. apply (Qlt_not_le _ _ H E).
Qed.

Lemma insert_perm (x : Q) (l : list Q) : Permutation (insert x l) (x :: l).
Proof.
  induction l as [|y l IH]; simpl.
  - apply Permutation_refl.
  - destruct (Qle_bool x y).
    + apply Permutation_refl.
    + eapply perm_trans; [apply perm_skip, IH | apply perm_swap].
Qed.

Lemma sort_perm (l : list Q) : Permutation (sort l) l.
Proof.
  induction l as [|x l IH]; simpl.
  - constructor.
  - eapply perm_trans; [apply insert_perm | now apply perm_skip].
Qed.

Lemma sort_length (l : list Q) : length (sort l) = length l.
Proof. apply Permutation_length, sort_perm. Qed.

Lemma insert_sorted (x : Q) (l : list Q) :
  StronglySorted Qle l -> StronglySorted Qle (insert x l).
Proof.
  induction 1 as [|y l Hs IH Hy]; simpl.
  - repeat constructor.
  - destruct (Qle_bool x y) eqn:E.
    + apply Qle_bool_iff in E.
      constructor; [now constructor|].
      constructor; [exact E|].
      eapply Forall_impl; [|exact Hy].
      intros z Hz. now apply Qle_trans with y.
    + apply Qle_bool_false in E.
      constructor; [exact IH|].
      apply (Permutation_Forall (Permutation_sym (insert_perm x l))).
      constructor; [now apply Qlt_le_weak | exact Hy].
Qed.

Lemma sort_sorted (l : list Q) : StronglySorted Qle (sort l).
Proof.
  induction l as [|x l IH]; simpl.
  - constructor.
  - now apply insert_sorted.
Qed.

(** In an ascending array, a later position holds a value at least as
    large. *)
Lemma sorted_nth_le (l : list Q) (i j : nat) :
  StronglySorted Qle l -> (i <= j)%nat -> (j < length l)%nat ->
  nth i l 0 <= nth j l 0.
Proof.
  intros Hs; revert i j.
  induction Hs as [|x l Hs IH Hx]; intros i j Hij Hj; simpl in Hj.
  - lia.
  - destruct i as [|i], j as [|j]; simpl; try lia.
    + apply Qle_refl.
    + rewrite Forall_forall in Hx. apply Hx, nth_In. lia.
    + apply IH; lia.
Qed.

(** ** Ascending arrangements *)

Lemma Qeq_bool_comp_r (y x k : Q) :
  x == k -> Qeq_bool y x = Qeq_bool y k.
Proof.
  intros E. destruct (Qeq_bool y k) eqn:H.
  - apply Qeq_bool_iff in H. apply Qeq_bool_iff. now rewrite E.
  - destruct (Qeq_bool y x) eqn:H'; auto.
    apply Qeq_bool_iff in H'. rewrite E in H'.
    apply Qeq_bool_iff in H'. congruence.
Qed.

Lemma occurrences_cons (y x : Q) (l : list Q) :
  occurrences y (x :: l)
  = ((if Qeq_bool y x then 1 else 0) + occurrences y l)%nat.
Proof. unfold occurrences. simpl. now destruct (Qeq_bool y x). Qed.

Lemma occurrences_permutation (y : Q) (l l' : list Q) :
  Permutation l l' -> occurrences y l = occurrences y l'.
Proof.
  induction 1 as [|x l l' _ IH|x z l|l l' l'' _ IH1 _ IH2].
  - reflexivity.
  - now rewrite !occurrences_cons, IH.
  - rewrite !occurrences_cons. lia.
  - congruence.
Qed.

Lemma occurrences_found (y : Q) (l : list Q) :
  (1 <= occurrences y l)%nat -> exists z : Q, In z l /\ y == z.
Proof.
  induction l as [|x l IH]; [cbn; lia|].
  rewrite occurrences_cons. destruct (Qeq_bool y x) eqn:E.
  - intros _. exists x. split; [now left | now apply Qeq_bool_iff].
  - intros H. destruct IH as (z & Hz & Ez); [simpl in H; lia|].
    exists z. split; [now right | exact Ez].
Qed.

Lemma sorted_head_least (x z : Q) (l : list Q) :
  StronglySorted Qle (x :: l) -> In z (x :: l) -> x <= z.
Proof.
  intros H [<-|Hz]; [apply Qle_refl|].
  apply StronglySorted_inv in H. destruct H as [_ Hall].
  rewrite Forall_forall in Hall. now apply Hall.
Qed.

(** The least element of an ascending list is the least element of any
    other ascending list holding the same values as often. *)
Lemma ascending_heads (x1 x2 : Q) (t1 t2 : list Q) :
  StronglySorted Qle (x1 :: t1) ->
  (forall y, occurrences y (x1 :: t1) = occurrences y (x2 :: t2)) ->
  x1 <= x2.
Proof.
  intros H1 Hc.
  destruct (occurrences_found x2 (x1 :: t1)) as (z & Hz & Ez).
  { rewrite Hc, occurrences_cons, Qeq_bool_refl. lia. }
  rewrite Ez. now apply sorted_head_least with t1.
Qed.

(** Ascending lists that hold every value equally often agree position by
    position. *)
Lemma ascending_counts_unique (s1 s2 : list Q) :
  StronglySorted Qle s1 -> StronglySorted Qle s2 ->
  (forall y, occurrences y s1 = occurrences y s2) ->
  Forall2 Qeq s1 s2.
Proof.
  intros H1; revert s2.
  induction s1 as [|x1 t1 IH]; intros [|x2 t2] H2 Hc.
  - constructor.
  - specialize (Hc x2). rewrite occurrences_cons, Qeq_bool_refl in Hc.
    cbn in Hc. lia.
  - specialize (Hc x1). rewrite occurrences_cons, Qeq_bool_refl in Hc.
    cbn in Hc. lia.
  - assert (E : x1 == x2).
    { apply Qle_antisym.
      - now apply (ascending_heads x1 x2 t1 t2).
      - apply (ascending_heads x2 x1 t2 t1); [exact H2|].
        intros y. symmetry. apply Hc. }
    constructor; [exact E|].
    apply StronglySorted_inv in H1. apply StronglySorted_inv in H2.
    apply IH; [tauto | tauto |].
    intros y. specialize (Hc y). rewrite !occurrences_cons in Hc.
    rewrite (Qeq_bool_comp_r y x1 x2 E) in Hc. lia.
Qed.

Lemma sort_ascending (samples : list Q) : ascending samples (sort samples).
Proof. split; [apply sort_perm | apply sort_sorted]. Qed.

Lemma ascending_unique (samples s1 s2 : list Q) :
  ascending samples s1 -> ascending samples s2 -> Forall2 Qeq s1 s2.
Proof.
  intros [P1 S1] [P2 S2]. apply ascending_counts_unique; auto.
  intros y. now rewrite (occurrences_permutation y _ _ P1),
                        (occurrences_permutation y _ _ P2).
Qed.

Lemma ascending_length (samples order_statistics : list Q) :
  ascending samples order_statistics ->
  length order_statistics = length samples.
Proof. intros [P _]. now apply Permutation_length. Qed.

Lemma Forall2_Qeq_nth (l l' : list Q) (i : nat) :
  Forall2 Qeq l l' -> nth i l 0 == nth i l' 0.
Proof.
  intros H; revert i.
  induction H as [|x y l l' E _ IH]; intros [|i]; simpl;
    try reflexivity; auto.
Qed.

(** However the samples are sorted, position [i] holds the value the
    code's sorted copy holds there. *)
Lemma ascending_nth (samples order_statistics : list Q) (i : nat) :
  ascending samples order_statistics ->
  nth i order_statistics 0 == nth i (sort samples) 0.
Proof.
  intros H. apply Forall2_Qeq_nth.
  apply (ascending_unique samples); [exact H | apply sort_ascending].
Qed.

(** ** Percentiles *)

Lemma lerp_eq (a b t : Q) : lerp a b t == a + (b - a) * t.
Proof. unfold lerp. destruct (Qle_bool 0.5 t); ring. Qed.

Lemma getitem_last (a : list Q) :
  (1 <= length a)%nat -> getitem a (-1) = nth (length a - 1) a 0.
Proof.
  intros H. unfold getitem. simpl. f_equal. lia.
Qed.

Lemma getitem_nonneg (a : list Q) (i : Z) :
  (0 <= i)%Z -> getitem a i = nth (Z.to_nat i) a 0.
Proof.
  intros H. unfold getitem.
  destruct (i <? 0)%Z eqn:E; [apply Z.ltb_lt in E; lia | reflexivity].
Qed.

Lemma inject_Z_pred (n : nat) :
  (1 <= n)%nat -> inject_Z (Z.of_nat (n - 1)) == inject_Z (Z.of_nat n) - 1.
Proof.
  intros H. replace (Z.of_nat (n - 1)) with (Z.of_nat n - 1)%Z by lia.
  unfold Zminus. rewrite inject_Z_plus, inject_Z_opp. reflexivity.
Qed.

(** Below the last position the floor of the virtual index and its
    successor are both positions of the array. *)
Lemma floor_in_range (n : nat) (v : Q) :
  0 <= v -> v < inject_Z (Z.of_nat n) - 1 ->
  (0 <= Qfloor v)%Z /\ (S (Z.to_nat (Qfloor v)) < n)%nat.
Proof.
  intros H0 Hn.
  assert (Hf : (0 <= Qfloor v)%Z).
  { change 0%Z with (Qfloor 0). now apply Qfloor_resp_le. }
  split; [exact Hf|].
  assert (Hlt : inject_Z (Qfloor v) < inject_Z (Z.of_nat n - 1)).
  { apply Qle_lt_trans with v; [apply Qfloor_le|].
    unfold Zminus. rewrite inject_Z_plus, inject_Z_opp. exact Hn. }
  rewrite <- Zlt_Qlt in Hlt. lia.
Qed.

(** The value NumPy returns at or beyond the last position. *)
Lemma np_quantile_top (arr : list Q) (quantile : Q) :
  let n := length arr in
  let v := get_virtual_index n quantile in
  (1 <= n)%nat -> 0 <= v -> inject_Z (Z.of_nat n) - 1 <= v ->
  np_quantile arr quantile == nth (n - 1) (sort arr) 0.
Proof.
  intros n v Hn H0 Htop. unfold np_quantile. fold n. fold v.
  unfold get_indexes, Qlt_bool.
  apply Qle_bool_iff in H0. rewrite H0. simpl negb. cbv iota.
  apply Qle_bool_iff in Htop. rewrite Htop.
  rewrite getitem_last by (rewrite sort_length; exact Hn).
  rewrite sort_length. fold n. rewrite lerp_eq. ring.
Qed.

(** The value NumPy returns strictly inside the array. *)
Lemma np_quantile_inside (arr : list Q) (quantile : Q) :
  let n := length arr in
  let v := get_virtual_index n quantile in
  let k := Z.to_nat (Qfloor v) in
  0 <= v -> v < inject_Z (Z.of_nat n) - 1 ->
  np_quantile arr quantile ==
  nth k (sort arr) 0
  + (nth (S k) (sort arr) 0 - nth k (sort arr) 0) * (v - inject_Z (Qfloor v)).
Proof.
  intros n v k H0 Hin. unfold np_quantile. fold n. fold v.
  destruct (floor_in_range n v H0 Hin) as [Hf Hk].
  unfold get_indexes, Qlt_bool.
  apply Qle_bool_iff in H0. rewrite H0. simpl negb. cbv iota.
  apply Qle_bool_false in Hin. rewrite Hin.
  rewrite !getitem_nonneg by lia.
  replace (Z.to_nat (Qfloor v + 1)) with (S k) by (unfold k; lia).
  fold k. rewrite lerp_eq. unfold get_gamma. reflexivity.
Qed.

Lemma fraction_bounds (v : Q) :
  0 <= v - inject_Z (Qfloor v) /\ v - inject_Z (Qfloor v) < 1.
Proof.
  pose proof (Qfloor_le v) as Hlo.
  pose proof (Qlt_floor v) as Hhi.
  rewrite inject_Z_plus in Hhi. change (inject_Z 1) with 1 in Hhi.
  split; lra.
Qed.

(** Inside the array the returned value lies between the two order
    statistics it is interpolated from. *)
Lemma np_quantile_between (arr : list Q) (quantile : Q) :
  let n := length arr in
  let v := get_virtual_index n quantile in
  let k := Z.to_nat (Qfloor v) in
  0 <= v -> v < inject_Z (Z.of_nat n) - 1 ->
  nth k (sort arr) 0 <= np_quantile arr quantile
  /\ np_quantile arr quantile <= nth (S k) (sort arr) 0.
Proof.
  intros n v k H0 Hin.
  destruct (floor_in_range n v H0 Hin) as [Hf Hk]. fold k in Hk.
  assert (Hab : nth k (sort arr) 0 <= nth (S k) (sort arr) 0).
  { apply sorted_nth_le; [apply sort_sorted | lia |].
    rewrite sort_length. exact Hk. }
  destruct (fraction_bounds v) as [Ht0 Ht1].
  rewrite (np_quantile_inside arr quantile H0 Hin). fold n v k.
  split; nra.
Qed.

Lemma virtual_index_monotone (n : nat) (q1 q2 : Q) :
  (1 <= n)%nat -> q1 <= q2 ->
  get_virtual_index n q1 <= get_virtual_index n q2.
Proof.
  intros Hn Hq. unfold get_virtual_index.
  assert (0 <= inject_Z (Z.of_nat n) - 1).
  { rewrite <- inject_Z_pred by exact Hn.
    change 0 with (inject_Z 0). rewrite <- Zle_Qle. lia. }
  nra.
Qed.

Lemma virtual_index_nonneg (n : nat) (q : Q) :
  (1 <= n)%nat -> 0 <= q -> 0 <= get_virtual_index n q.
Proof.
  intros Hn Hq. unfold get_virtual_index.
  assert (0 <= inject_Z (Z.of_nat n) - 1).
  { rewrite <- inject_Z_pred by exact Hn.
    change 0 with (inject_Z 0). rewrite <- Zle_Qle. lia. }
  nra.
Qed.

(** The quantile of a non-empty array never decreases when the requested
    fraction grows. *)
Lemma np_quantile_monotone (arr : list Q) (q1 q2 : Q) :
  (1 <= length arr)%nat -> 0 <= q1 -> q1 <= q2 ->
  np_quantile arr q1 <= np_quantile arr q2.
Proof.
  intros Hn Hq1 Hq12.
  set (n := length arr) in *.
  pose proof (virtual_index_nonneg n q1 Hn Hq1) as Hv1.
  pose proof (virtual_index_monotone n q1 q2 Hn Hq12) as Hv12.
  set (v1 := get_virtual_index n q1) in *.
  set (v2 := get_virtual_index n q2) in *.
  assert (Hv2 : 0 <= v2) by lra.
  pose proof (sort_sorted arr) as Hs.
  pose proof (sort_length arr) as Hl. fold n in Hl.
  destruct (Qlt_le_dec v2 (inject_Z (Z.of_nat n) - 1)) as [Hin2|Htop2].
  - (* both strictly inside *)
    assert (Hin1 : v1 < inject_Z (Z.of_nat n) - 1) by lra.
    destruct (floor_in_range n v1 Hv1 Hin1) as [Hf1 Hk1].
    destruct (floor_in_range n v2 Hv2 Hin2) as [Hf2 Hk2].
    pose proof (Qfloor_resp_le _ _ Hv12) as Hf12.
    destruct (Z.eq_dec (Qfloor v1) (Qfloor v2)) as [E|NE].
    + rewrite (np_quantile_inside arr q1 Hv1 Hin1).
      rewrite (np_quantile_inside arr q2 Hv2 Hin2).
      fold n v1 v2. rewrite E.
      set (k := Z.to_nat (Qfloor v2)) in *.
      assert (Hab : nth k (sort arr) 0 <= nth (S k) (sort arr) 0).
      { apply sorted_nth_le; [exact Hs | lia | lia]. }
      nra.
    + destruct (np_quantile_between arr q1 Hv1 Hin1) as [_ Hup].
      destruct (np_quantile_between arr q2 Hv2 Hin2) as [Hlo _].
      fold n v1 in Hup. fold n v2 in Hlo.
      eapply Qle_trans; [exact Hup|].
      eapply Qle_trans; [|exact Hlo].
      apply sorted_nth_le; [exact Hs | lia | lia].
  - (* the larger one is the maximum *)
    rewrite (np_quantile_top arr q2 Hn Hv2 Htop2). fold n.
    destruct (Qlt_le_dec v1 (inject_Z (Z.of_nat n) - 1)) as [Hin1|Htop1].
    + destruct (floor_in_range n v1 Hv1 Hin1) as [Hf1 Hk1].
      destruct (np_quantile_between arr q1 Hv1 Hin1) as [_ Hup].
      fold n v1 in Hup.
      eapply Qle_trans; [exact Hup|].
      apply sorted_nth_le; [exact Hs | lia | lia].
    + rewrite (np_quantile_top arr q1 Hn Hv1 Htop1). fold n.
      apply Qle_refl.
Qed.

Lemma np_percentile_monotone (a : list Q) (q1 q2 : Q) :
  (1 <= length a)%nat -> 0 <= q1 -> q1 <= q2 ->
  np_percentile a q1 <= np_percentile a q2.
Proof.
  intros Hn H1 H12. unfold np_percentile.
  apply np_quantile_monotone; [exact Hn | |].
  - unfold Qdiv. apply Qmult_le_0_compat; [exact H1 | discriminate].
  - unfold Qdiv. apply Qmult_le_compat_r; [exact H12 | discriminate].
Qed.

(** NumPy's percentile interpolates in its own sorted copy at position
    [p / 100 * (n - 1)]. *)
Lemma np_percentile_sorted_copy (samples : list Q) (p : Q) :
  (1 <= length samples)%nat -> 0 <= p -> p <= 100 ->
  np_percentile samples p == spec_percentile (sort samples) p.
Proof.
  intros Hn Hp0 Hp100.
  unfold np_percentile, spec_percentile. rewrite sort_length.
  set (n := length samples) in *.
  assert (Hq0 : 0 <= p / 100).
  { unfold Qdiv. apply Qmult_le_0_compat; [exact Hp0 | discriminate]. }
  pose proof (virtual_index_nonneg n (p / 100) Hn Hq0) as Hv.
  assert (Hpos : p / 100 * (inject_Z (Z.of_nat n) - 1)
                 == get_virtual_index n (p / 100)).
  { unfold get_virtual_index. ring. }
  rewrite (Qfloor_comp _ _ Hpos), Hpos.
  set (v := get_virtual_index n (p / 100)) in *.
  destruct (Qlt_le_dec v (inject_Z (Z.of_nat n) - 1)) as [Hin|Htop].
  - rewrite (np_quantile_inside samples (p / 100) Hv Hin). fold n v. ring.
  - rewrite (np_quantile_top samples (p / 100) Hn Hv Htop). fold n.
    assert (Hle : v <= inject_Z (Z.of_nat n) - 1).
    { unfold v, get_virtual_index.
      assert (0 <= inject_Z (Z.of_nat n) - 1).
      { rewrite <- inject_Z_pred by exact Hn.
        change 0 with (inject_Z 0). rewrite <- Zle_Qle. lia. }
      assert (p / 100 <= 1).
      { unfold Qdiv. setoid_replace 1 with (100 * / 100) by reflexivity.
        apply Qmult_le_compat_r; [exact Hp100 | discriminate]. }
      nra. }
    assert (Ev : v == inject_Z (Z.of_nat (n - 1))).
    { rewrite inject_Z_pred by exact Hn. lra. }
    rewrite (Qfloor_comp _ _ Ev), Qfloor_Z, Ev, Nat2Z.id. ring.
Qed.

(** NumPy's percentile is the interpolation between order statistics at
    position [p / 100 * (n - 1)], whichever way the samples were sorted. *)
Lemma np_percentile_spec (samples order_statistics : list Q) (p : Q) :
  ascending samples order_statistics ->
  (1 <= length samples)%nat -> 0 <= p -> p <= 100 ->
  np_percentile samples p == spec_percentile order_statistics p.
Proof.
  intros Ha Hn Hp0 Hp100.
  rewrite (np_percentile_sorted_copy samples p Hn Hp0 Hp100).
  unfold spec_percentile.
  rewrite (ascending_length _ _ Ha), sort_length. cbv zeta.
  now rewrite !(ascending_nth samples order_statistics _ Ha).
Qed.

(** ** Scaling every sample by a positive factor *)

Section Scaling.

Variable k : Q.
Hypothesis k_pos : 0 < k.

Lemma scaled_zero : scaled k 0 0.
Proof. unfold scaled. ring. Qed.

Lemma scaled_le_bool (x x' y y' : Q) :
  scaled k x x' -> scaled k y y' -> Qle_bool x' y' = Qle_bool x y.
Proof.
  unfold scaled. intros Hx Hy.
  assert (H : x' <= y' <-> x <= y).
  { rewrite Hx, Hy. split; intros H.
    - now apply Qmult_le_l in H.
    - now apply Qmult_le_l. }
  destruct (Qle_bool x y) eqn:E.
  - apply Qle_bool_iff. apply H. now apply Qle_bool_iff.
  - destruct (Qle_bool x' y') eqn:E'; auto.
    apply Qle_bool_iff, H, Qle_bool_iff in E'. congruence.
Qed.

Lemma insert_scaled (x x' : Q) (l l' : list Q) :
  scaled k x x' -> Forall2 (scaled k) l l' ->
  Forall2 (scaled k) (insert x l) (insert x' l').
Proof.
  intros Hx Hl. induction Hl as [|y y' l l' Hy Hl IH]; simpl.
  - repeat constructor. exact Hx.
  - rewrite (scaled_le_bool x x' y y' Hx Hy).
    destruct (Qle_bool x y); repeat constructor; auto.
Qed.

Lemma sort_scaled (l l' : list Q) :
  Forall2 (scaled k) l l' -> Forall2 (scaled k) (sort l) (sort l').
Proof.
  induction 1 as [|x x' l l' Hx Hl IH]; simpl.
  - constructor.
  - now apply insert_scaled.
Qed.

Lemma nth_scaled (l l' : list Q) (i : nat) :
  Forall2 (scaled k) l l' -> scaled k (nth i l 0) (nth i l' 0).
Proof.
  intros Hl; revert i.
  induction Hl as [|x x' l l' Hx Hl IH]; intros [|i]; simpl;
    auto using scaled_zero.
Qed.

Lemma getitem_scaled (l l' : list Q) (i : Z) :
  Forall2 (scaled k) l l' -> scaled k (getitem l i) (getitem l' i).
Proof.
  intros Hl. unfold getitem.
  rewrite <- (Forall2_length Hl).
  destruct (i <? 0)%Z; now apply nth_scaled.
Qed.

Lemma lerp_scaled (a a' b b' t : Q) :
  scaled k a a' -> scaled k b b' -> scaled k (lerp a b t) (lerp a' b' t).
Proof.
  unfold scaled. intros Ha Hb. rewrite !lerp_eq, Ha, Hb. ring.
Qed.

Lemma np_quantile_scaled (l l' : list Q) (quantile : Q) :
  Forall2 (scaled k) l l' ->
  scaled k (np_quantile l quantile) (np_quantile l' quantile).
Proof.
  intros Hl. unfold np_quantile.
  rewrite <- (Forall2_length Hl).
  destruct (get_indexes _ _) as [previous_index next_index].
  apply lerp_scaled; apply getitem_scaled, sort_scaled, Hl.
Qed.

Lemma np_percentile_scaled (l l' : list Q) (q : Q) :
  Forall2 (scaled k) l l' ->
  scaled k (np_percentile l q) (np_percentile l' q).
Proof. apply np_quantile_scaled. Qed.

Lemma array_sum_scaled (l l' : list Q) :
  Forall2 (scaled k) l l' -> scaled k (array_sum l) (array_sum l').
Proof.
  unfold scaled, array_sum.
  induction 1 as [|x x' l l' Hx Hl IH]; simpl.
  - ring.
  - rewrite Hx, IH. ring.
Qed.

Lemma array_mean_scaled (l l' : list Q) :
  Forall2 (scaled k) l l' -> scaled k (array_mean l) (array_mean l').
Proof.
  intros Hl. unfold array_mean.
  rewrite <- (Forall2_length Hl).
  pose proof (array_sum_scaled l l' Hl) as Hs.
  unfold scaled in *. unfold Qdiv. rewrite Hs. ring.
Qed.

(** The two multiplications of line 43 under a markup whose product is
    [k] times larger. *)
Lemma markup_scaled (direct : list Q) (oh pm oh' pm' : Q) :
  oh' * pm' == k * (oh * pm) ->
  Forall2 (scaled k)
    (array_scale (array_scale direct oh) pm)
    (array_scale (array_scale direct oh') pm').
Proof.
  intros H. unfold scaled.
  induction direct as [|x direct IH]; simpl; constructor; auto.
  rewrite <- !Qmult_assoc, H. ring.
Qed.

End Scaling.

(** ** The analysis *)

Section Analysis.

Context {rng_state : Type}.
Variable legacy_gauss : rng_state -> Q * rng_state.

(** An accepted analysis succeeds, leaves the generator after the deviates
    of its two draws, and each of its fields is computed from the ones
    before it as lines 33-48 and 84-90 say. *)
Lemma risk_analysis_ok (p : job_parameters) (s : rng_state) :
  draws_accepted p = true ->
  exists a : analysis,
    risk_analysis legacy_gauss p s =
    (inr a, advance legacy_gauss (n_simulations + n_simulations) s)
    /\ material_total a =
       map (fun g => inject_Z (material_cost p) + mat_std p * g)
           (deviates legacy_gauss n_simulations s)
    /\ labor_hours_sim a =
       map (fun g => machining_hours p + labor_std p * g)
           (deviates legacy_gauss n_simulations
              (advance legacy_gauss n_simulations s))
    /\ labor_cost a = array_scale (labor_hours_sim a) (inject_Z (labor_rate p))
    /\ direct_costs a = array_add (material_total a) (labor_cost a)
    /\ total_quote a =
       array_scale (array_scale (direct_costs a) (overhead_multiplier p))
                   (profit_margin p)
    /\ mean_cost a = array_mean (total_quote a)
    /\ median_cost a = np_percentile (total_quote a) 50
    /\ p75 a = np_percentile (total_quote a) 75
    /\ p90 a = np_percentile (total_quote a) 90
    /\ stats_df a =
       [np_percentile (total_quote a) 10; np_percentile (total_quote a) 25;
        median_cost a; p75 a; p90 a].
Proof.
  intros Hp. eexists. split.
  - rewrite (risk_analysis_eq legacy_gauss p s Hp). cbv zeta.
    rewrite advance_app. reflexivity.
  - cbn [material_total labor_hours_sim labor_cost direct_costs total_quote
         mean_cost median_cost p75 p90 stats_df].
    repeat split.
Qed.

Lemma script_pressed (p : job_parameters) (s s' : rng_state) (a : analysis) :
  risk_analysis legacy_gauss p s = (inr a, s') ->
  script legacy_gauss true p s = (inr (Some a), s').
Proof. intros H. unfold script, bind, ret. now rewrite H. Qed.

Lemma script_idle (p : job_parameters) (s : rng_state) :
  script legacy_gauss false p s = (inr None, s).
Proof. reflexivity. Qed.

Lemma n_simulations_pos : (1 <= n_simulations)%nat.
Proof. apply Nat.leb_le. vm_compute. reflexivity. Qed.

Lemma draw_length (loc scale : Q) (n : nat) (s : rng_state) :
  length (map (fun g => loc + scale * g) (deviates legacy_gauss n s)) = n.
Proof. now rewrite length_map, deviates_length. Qed.

Lemma draw_nth (loc scale : Q) (n i : nat) (s : rng_state) :
  (i < n)%nat ->
  nth i (map (fun g => loc + scale * g) (deviates legacy_gauss n s)) 0
  = loc + scale * fst (legacy_gauss (advance legacy_gauss i s)).
Proof.
  intros Hi.
  rewrite (nth_indep _ 0 (loc + scale * 0)) by (now rewrite draw_length).
  rewrite (map_nth (fun g => loc + scale * g)).
  now rewrite deviates_nth.
Qed.

(** The pricing formula at one trial, for arrays of the run's length. *)
Lemma pricing_nth (material hours : list Q) (rate oh pm : Q) (i : nat) :
  (i < length material)%nat -> (i < length hours)%nat ->
  nth i (array_scale
           (array_scale (array_add material (array_scale hours rate)) oh)
           pm) 0
  = (nth i material 0 + nth i hours 0 * rate) * oh * pm.
Proof.
  intros Hm Hh.
  assert (Hd : (i < length (array_add material (array_scale hours rate)))%nat).
  { rewrite array_add_length_min, array_scale_length. lia. }
  rewrite nth_array_scale by (now rewrite array_scale_length).
  rewrite nth_array_scale by exact Hd.
  rewrite nth_array_add by (rewrite ?array_scale_length; assumption).
  now rewrite nth_array_scale.
Qed.

Lemma pricing_length (material hours : list Q) (rate oh pm : Q) :
  length material = length hours ->
  length (array_scale
            (array_scale (array_add material (array_scale hours rate)) oh)
            pm)
  = length material.
Proof.
  intros H. rewrite !array_scale_length.
  apply array_add_length. now rewrite array_scale_length.
Qed.


(** C2: the material draws are [material_cost + mat_std * g] and the
    labor-hour draws [machining_hours + labor_std * g] over successive
    standard deviates [g], where [mat_std] is
    [material_cost * material_uncertainty / 100] and [labor_std] is
    [machining_hours * labor_uncertainty / 100]: each scale is the standard
    deviation of a normal draw centred at the point estimate. *)
Theorem draws_centred_and_scaled (p : job_parameters) (s : rng_state) :
  draws_accepted p = true ->
  exists a : analysis,
    fst (risk_analysis legacy_gauss p s) = inr a
    /\ material_total a =
       map (fun g => inject_Z (material_cost p) + mat_std p * g)
           (deviates legacy_gauss n_simulations s)
    /\ mat_std p ==
       inject_Z (material_cost p) * inject_Z (material_uncertainty p) / 100
    /\ labor_hours_sim a =
       map (fun g => machining_hours p + labor_std p * g)
           (deviates legacy_gauss n_simulations
              (advance legacy_gauss n_simulations s))
    /\ labor_std p ==
       machining_hours p * inject_Z (labor_uncertainty p) / 100.
Proof.
  intros Hp.
  destruct (risk_analysis_ok p s Hp) as (a & Hrun & Hm & Hh & _).
  exists a. split; [now rewrite Hrun|].
  split; [exact Hm|]. split; [unfold mat_std; field|].
  split; [exact Hh | unfold labor_std; field].
Qed.

(** Every array of an accepted analysis has [n_simulations] entries. *)
Lemma analysis_lengths (p : job_parameters) (s s' : rng_state)
    (a : analysis) :
  draws_accepted p = true ->
  risk_analysis legacy_gauss p s = (inr a, s') ->
  length (material_total a) = n_simulations
  /\ length (labor_hours_sim a) = n_simulations
  /\ length (total_quote a) = n_simulations.
Proof.
  intros Hp Hrun.
  destruct (risk_analysis_ok p s Hp)
    as (a0 & Hrun0 & Hm & Hh & Hc & Hd & Ht & _).
  rewrite Hrun in Hrun0. injection Hrun0 as <- _.
  assert (Lm : length (material_total a) = n_simulations)
    by (now rewrite Hm, draw_length).
  assert (Lh : length (labor_hours_sim a) = n_simulations)
    by (now rewrite Hh, draw_length).
  repeat split; auto.
  rewrite Ht, Hd, Hc, pricing_length; [exact Lm | now rewrite Lm, Lh].
Qed.

(** C5: every successful run draws and returns exactly 10,000 total-cost
    samples, whatever the parameters and the generator state; the count is
    the constant [n_simulations]. *)
Theorem sample_count_fixed (p : job_parameters) (s : rng_state) :
  draws_accepted p = true ->
  exists a : analysis,
    fst (risk_analysis legacy_gauss p s) = inr a
    /\ Z.of_nat n_simulations = 10000%Z
    /\ length (material_total a) = n_simulations
    /\ length (labor_hours_sim a) = n_simulations
    /\ length (total_quote a) = n_simulations.
Proof.
  intros Hp.
  destruct (risk_analysis_ok p s Hp) as (a & Hrun & _).
  exists a. split; [now rewrite Hrun|].
  split; [vm_compute; reflexivity|].
  exact (analysis_lengths p s _ a Hp Hrun).
Qed.

(** C9: within one run the mean, the three headline percentiles and the
    five table entries (the 10th and 25th percentile included) are all
    computed from the single array [total_quote], and the run leaves the
    generator where the two draws of [n_simulations] deviates left it: no
    further draw happens before the table is built. *)
Theorem statistics_from_single_draw (p : job_parameters) (s : rng_state) :
  draws_accepted p = true ->
  exists (a : analysis) (samples : list Q),
    risk_analysis legacy_gauss p s =
    (inr a, advance legacy_gauss (n_simulations + n_simulations) s)
    /\ total_quote a = samples
    /\ mean_cost a = array_mean samples
    /\ median_cost a = np_percentile samples 50
    /\ p75 a = np_percentile samples 75
    /\ p90 a = np_percentile samples 90
    /\ stats_df a =
       [np_percentile samples 10; np_percentile samples 25;
        np_percentile samples 50; np_percentile samples 75;
        np_percentile samples 90].
Proof.
  intros Hp.
  destruct (risk_analysis_ok p s Hp)
    as (a & Hrun & _ & _ & _ & _ & _ & Hmean & Hmed & H75 & H90 & Hdf).
  exists a, (total_quote a). repeat split; auto.
  now rewrite Hdf, Hmed, H75, H90.
Qed.

(** The analysis reads the generator only through the deviates of its two
    draws. *)
Lemma risk_analysis_reads_deviates (p : job_parameters) (s1 s2 : rng_state) :
  draws_accepted p = true ->
  deviates legacy_gauss (n_simulations + n_simulations) s1
  = deviates legacy_gauss (n_simulations + n_simulations) s2 ->
  fst (risk_analysis legacy_gauss p s1) = fst (risk_analysis legacy_gauss p s2).
Proof.
  intros Hp. rewrite !deviates_app. intros H.
  apply app_eq_length in H; [|now rewrite !deviates_length].
  destruct H as [H1 H2].
  rewrite !(risk_analysis_eq legacy_gauss p _ Hp). cbv zeta. cbn [fst].
  now rewrite H1, H2.
Qed.


(** C4: the five reported percentiles never decrease:
    p10 <= p25 <= p50 <= p75 <= p90, for the sample array of any run. *)
Theorem reported_percentiles_ordered (p : job_parameters) (s : rng_state) :
  draws_accepted p = true ->
  exists (a : analysis) (p10 p25 : Q),
    fst (risk_analysis legacy_gauss p s) = inr a
    /\ stats_df a = [p10; p25; median_cost a; p75 a; p90 a]
    /\ p10 <= p25 /\ p25 <= median_cost a
    /\ median_cost a <= p75 a /\ p75 a <= p90 a.
Proof.
  intros Hp.
  destruct (risk_analysis_ok p s Hp)
    as (a & Hrun & _ & _ & _ & _ & _ & _ & Hmed & H75 & H90 & Hdf).
  destruct (analysis_lengths p s _ a Hp Hrun) as (_ & _ & Hn).
  exists a, (np_percentile (total_quote a) 10),
    (np_percentile (total_quote a) 25).
  split; [now rewrite Hrun|]. split; [exact Hdf|].
  rewrite Hmed, H75, H90.
  assert (Hne : (1 <= length (total_quote a))%nat)
    by (rewrite Hn; apply n_simulations_pos).
  repeat split; apply np_percentile_monotone; try exact Hne; discriminate.
Qed.

(** The draws behind trial [i] of an accepted analysis. *)
Lemma analysis_draw_nth (p : job_parameters) (s : rng_state) (a : analysis)
    (i : nat) :
  draws_accepted p = true ->
  fst (risk_analysis legacy_gauss p s) = inr a ->
  (i < n_simulations)%nat ->
  nth i (material_total a) 0 =
    inject_Z (material_cost p)
    + mat_std p * fst (legacy_gauss (advance legacy_gauss i s))
  /\ nth i (labor_hours_sim a) 0 =
    machining_hours p
    + labor_std p
      * fst (legacy_gauss
               (advance legacy_gauss i
                  (advance legacy_gauss n_simulations s))).
Proof.
  intros Hp Hrun Hi.
  destruct (risk_analysis_ok p s Hp) as (a0 & Hrun0 & Hm & Hh & _).
  rewrite Hrun0 in Hrun. injection Hrun as <-.
  rewrite Hm, Hh. split; now apply draw_nth.
Qed.

(** The quote of trial [i] of an accepted analysis. *)
Lemma analysis_quote_nth (p : job_parameters) (s : rng_state) (a : analysis)
    (i : nat) :
  draws_accepted p = true ->
  fst (risk_analysis legacy_gauss p s) = inr a ->
  (i < n_simulations)%nat ->
  nth i (total_quote a) 0 =
  (nth i (material_total a) 0
   + nth i (labor_hours_sim a) 0 * inject_Z (labor_rate p))
  * overhead_multiplier p * profit_margin p.
Proof.
  intros Hp Hrun Hi.
  destruct (risk_analysis_ok p s Hp)
    as (a0 & Hrun0 & Hm & Hh & Hc & Hd & Ht & _).
  rewrite Hrun0 in Hrun. injection Hrun as <-.
  rewrite Ht, Hd, Hc.
  apply pricing_nth; [rewrite Hm | rewrite Hh]; now rewrite draw_length.
Qed.

(** Two presses in a row: the second analysis is the one a single press
    returns from the state the first press left. *)
Lemma two_invocations_eq (p : job_parameters) (s : rng_state)
    (a a' : analysis) :
  risk_analysis legacy_gauss p s
  = (inr a, advance legacy_gauss (n_simulations + n_simulations) s) ->
  risk_analysis legacy_gauss p
    (advance legacy_gauss (n_simulations + n_simulations) s)
  = (inr a',
     advance legacy_gauss (n_simulations + n_simulations)
       (advance legacy_gauss (n_simulations + n_simulations) s)) ->
  two_invocations legacy_gauss p s
  = (inr (a, a'),
     advance legacy_gauss (n_simulations + n_simulations)
       (advance legacy_gauss (n_simulations + n_simulations) s)).
Proof.
  intros H1 H2. unfold two_invocations, bind, ret. now rewrite H1, H2.
Qed.


(** C8: nothing is truncated or clamped.  Where a material draw or a
    labor-hour draw is negative, the total quote is still exactly the
    linear formula applied to the two draws, and it is negative whenever
    the direct cost is negative and the markup positive. *)
Theorem negative_draws_not_clamped (p : job_parameters) (s : rng_state)
    (i : nat) :
  draws_accepted p = true ->
  (i < n_simulations)%nat ->
  exists a : analysis,
    fst (risk_analysis legacy_gauss p s) = inr a
    /\ let m := nth i (material_total a) 0 in
       let h := nth i (labor_hours_sim a) 0 in
       (m < 0 \/ h < 0 ->
        nth i (total_quote a) 0 =
          (m + h * inject_Z (labor_rate p))
          * overhead_multiplier p * profit_margin p
        /\ (m + h * inject_Z (labor_rate p) < 0 ->
            0 < overhead_multiplier p -> 0 < profit_margin p ->
            nth i (total_quote a) 0 < 0)).
Proof.
  intros Hp Hi.
  destruct (risk_analysis_ok p s Hp)
    as (a & Hrun & Hm & Hh & Hc & Hd & Ht & _).
  exists a. split; [now rewrite Hrun|].
  intros m h _.
  assert (E : nth i (total_quote a) 0 =
              (m + h * inject_Z (labor_rate p))
              * overhead_multiplier p * profit_margin p).
  { subst m h. rewrite Ht, Hd, Hc. apply pricing_nth.
    - now rewrite Hm, draw_length.
    - now rewrite Hh, draw_length. }
  split; [exact E|].
  intros Hneg Hoh Hpm. rewrite E.
  set (d := m + h * inject_Z (labor_rate p)) in *. clearbody d.
  assert (H1 : d * overhead_multiplier p < 0).
  { setoid_replace 0 with (0 * overhead_multiplier p) by ring.
    now apply Qmult_lt_compat_r. }
  setoid_replace 0 with (0 * profit_margin p) by ring.
  now apply Qmult_lt_compat_r.
Qed.

(** With the draws held fixed, a markup whose product is a positive [k]
    times larger multiplies every figure of the analysis by [k]. *)
Lemma quotes_scale_by_positive_factor (p : job_parameters) (s : rng_state)
    (overhead profit k : Q) :
  draws_accepted p = true ->
  0 < k ->
  overhead * profit == k * (overhead_multiplier p * profit_margin p) ->
  exists a a' : analysis,
    fst (risk_analysis legacy_gauss p s) = inr a
    /\ fst (risk_analysis legacy_gauss (with_markup p overhead profit) s)
       = inr a'
    /\ length (total_quote a) = n_simulations
    /\ Forall2 (scaled k) (total_quote a) (total_quote a')
    /\ scaled k (mean_cost a) (mean_cost a')
    /\ scaled k (median_cost a) (median_cost a')
    /\ scaled k (p75 a) (p75 a')
    /\ scaled k (p90 a) (p90 a')
    /\ Forall2 (scaled k) (stats_df a) (stats_df a').
Proof.
  intros Hp Hk E.
  assert (Hp' : draws_accepted (with_markup p overhead profit) = true)
    by exact Hp.
  destruct (risk_analysis_ok p s Hp)
    as (a & Hrun & Hm & Hh & Hc & Hd & Ht & Hmean & Hmed & H75 & H90 & Hdf).
  destruct (risk_analysis_ok (with_markup p overhead profit) s Hp')
    as (a' & Hrun' & Hm' & Hh' & Hc' & Hd' & Ht' & Hmean' & Hmed' & H75'
        & H90' & Hdf').
  exists a, a'.
  split; [now rewrite Hrun|]. split; [now rewrite Hrun'|].
  split; [now apply (analysis_lengths p s _ a Hp Hrun)|].
  assert (Ed : direct_costs a' = direct_costs a).
  { rewrite Hd', Hd, Hc', Hc, Hm', Hm, Hh', Hh. reflexivity. }
  assert (Hq : Forall2 (scaled k) (total_quote a) (total_quote a')).
  { rewrite Ht, Ht', Ed.
    cbn [with_markup overhead_multiplier profit_margin].
    now apply markup_scaled. }
  rewrite Hdf, Hdf', Hmean, Hmean', Hmed, Hmed', H75, H75', H90, H90'.
  split; [exact Hq|].
  split; [now apply array_mean_scaled|].
  repeat split; try (now apply np_percentile_scaled).
  repeat constructor; now apply np_percentile_scaled.
Qed.

End Analysis.

(** ** Markup and input ranges *)

(** Inside the ranges the widgets declare, both markup factors are at
    least 1. *)
Lemma markup_at_least_one (p : job_parameters) :
  within_declared_ranges p = true ->
  1 <= overhead_multiplier p /\ 1 <= profit_margin p.
Proof.
  unfold within_declared_ranges, Widget.permits.
  rewrite !andb_true_iff, !Qle_bool_iff.
  cbn [Widget.min_value overhead_multiplier_input profit_margin_input].
  intros H. split; [| lra].
  destruct H as [[_ [H _]] _]. lra.
Qed.

(** So the ratio of two markup products is positive. *)
Lemma markup_factor_positive (p p' : job_parameters) (k : Q) :
  within_declared_ranges p = true -> within_declared_ranges p' = true ->
  overhead_multiplier p' * profit_margin p'
  == k * (overhead_multiplier p * profit_margin p) ->
  0 < k.
Proof.
  intros H H' E.
  destruct (markup_at_least_one p H) as [Ho Hp].
  destruct (markup_at_least_one p' H') as [Ho' Hp'].
  assert (0 < overhead_multiplier p * profit_margin p) by nra.
  assert (0 < overhead_multiplier p' * profit_margin p') by nra.
  destruct (Qlt_le_dec 0 k) as [Hk|Hk]; [exact Hk|].
  exfalso. nra.
Qed.

(** C10, in exact arithmetic: for a fixed vector of draws (the same
    generator state) and parameter sets within the declared ranges that
    differ in the markup only, if the product [overhead * profit] of the
    second is [k] times that of the first, then each of the 10,000
    samples, the mean and every reported percentile of the second is [k]
    times that of the first.  The float64 values the script computes
    agree with this up to rounding only. *)
Theorem quotes_scale_with_markup {rng_state : Type}
    (legacy_gauss : rng_state -> Q * rng_state)
    (p : job_parameters) (s : rng_state) (overhead profit k : Q) :
  within_declared_ranges p = true ->
  within_declared_ranges (with_markup p overhead profit) = true ->
  overhead * profit == k * (overhead_multiplier p * profit_margin p) ->
  exists a a' : analysis,
    fst (risk_analysis legacy_gauss p s) = inr a
    /\ fst (risk_analysis legacy_gauss (with_markup p overhead profit) s)
       = inr a'
    /\ length (total_quote a) = n_simulations
    /\ Forall2 (scaled k) (total_quote a) (total_quote a')
    /\ scaled k (mean_cost a) (mean_cost a')
    /\ scaled k (median_cost a) (median_cost a')
    /\ scaled k (p75 a) (p75 a')
    /\ scaled k (p90 a) (p90 a')
    /\ Forall2 (scaled k) (stats_df a) (stats_df a').
Proof.
  intros Hp Hp' E.
  apply quotes_scale_by_positive_factor; [| |exact E].
  - now apply declared_ranges_accepted.
  - now apply (markup_factor_positive p (with_markup p overhead profit)).
Qed.

(** An entry leaves every widget inside its interval. *)
Lemma sidebar_in_range (p : job_parameters) (e : entry) :
  within_declared_ranges p = true ->
  within_declared_ranges (sidebar p e) = true.
Proof.
  unfold within_declared_ranges. rewrite !andb_true_iff.
  intros [[[[[[H1 H2] H3] H4] H5] H6] H7].
  destruct e; unfold sidebar;
    match goal with
    | |- context [if ?c then _ else _] => destruct c eqn:E
    end;
    cbn [material_cost material_uncertainty machining_hours
         labor_uncertainty labor_rate overhead_multiplier profit_margin];
    tauto.
Qed.

Lemma handed_to_script_in_range (entries : list entry) :
  within_declared_ranges (handed_to_script entries) = true.
Proof.
  unfold handed_to_script.
  generalize default_parameters_in_range. generalize default_parameters.
  induction entries as [|e entries IH]; intros p Hp; simpl; [exact Hp|].
  apply IH. now apply sidebar_in_range.
Qed.

Example entry_in_range_is_taken :
  handed_to_script [EnterMaterialCost 4000; EnterMachiningHours 500]
  = mk_parameters 4000 12 500 20 75 1.35 1.15.
Proof. reflexivity. Qed.

Example entry_out_of_range_is_dropped :
  handed_to_script [EnterMaterialCost 4000; EnterMaterialCost 50001;
                    EnterProfitMargin 0.5]
  = mk_parameters 4000 12 35.0 20 75 1.35 1.15.
Proof. reflexivity. Qed.


(** ** Worked examples *)

Lemma counting_advance (n : nat) (k : Z) :
  advance counting_gauss n k = (k + Z.of_nat n)%Z.
Proof.
  revert k; induction n as [|n IH]; intros k.
  - cbn. lia.
  - rewrite advance_S, IH. cbn [counting_gauss snd]. lia.
Qed.

Lemma index_in_range (i : nat) :
  Nat.ltb i n_simulations = true -> (i < n_simulations)%nat.
Proof. apply Nat.ltb_lt. Qed.

(** With negative machining hours the material draw has consumed its
    10,000 deviates when NumPy refuses the labor draw. *)
Example negative_hours_refused_midway :
  risk_analysis counting_gauss negative_hours_parameters 0%Z =
  (inl (ValueError "scale < 0"), (0 + Z.of_nat n_simulations)%Z).
Proof.
  rewrite risk_analysis_raises_labor, counting_advance;
    [reflexivity | discriminate | reflexivity].
Qed.


(** C2 at the default parameters: scales 420 and 7. *)
Lemma draws_centred_and_scaled_witness :
  draws_accepted default_parameters = true
  /\ exists a : analysis,
       fst (risk_analysis counting_gauss default_parameters 0%Z) = inr a
       /\ material_total a =
          map (fun g => inject_Z 3500 + mat_std default_parameters * g)
              (deviates counting_gauss n_simulations 0%Z)
       /\ mat_std default_parameters == inject_Z 3500 * inject_Z 12 / 100
       /\ labor_hours_sim a =
          map (fun g => 35.0 + labor_std default_parameters * g)
              (deviates counting_gauss n_simulations
                 (advance counting_gauss n_simulations 0%Z))
       /\ labor_std default_parameters == 35.0 * inject_Z 20 / 100.
Proof.
  assert (Hp : draws_accepted default_parameters = true) by reflexivity.
  split; [exact Hp|].
  exact (draws_centred_and_scaled counting_gauss default_parameters 0%Z Hp).
Defined.


(** C4 at the default parameters. *)
Lemma reported_percentiles_ordered_witness :
  draws_accepted default_parameters = true
  /\ exists (a : analysis) (p10 p25 : Q),
       fst (risk_analysis counting_gauss default_parameters 0%Z) = inr a
       /\ stats_df a = [p10; p25; median_cost a; p75 a; p90 a]
       /\ p10 <= p25 /\ p25 <= median_cost a
       /\ median_cost a <= p75 a /\ p75 a <= p90 a.
Proof.
  assert (Hp : draws_accepted default_parameters = true) by reflexivity.
  split; [exact Hp|].
  exact (reported_percentiles_ordered counting_gauss default_parameters
           0%Z Hp).
Defined.

(** C5 at the default parameters. *)
Lemma sample_count_fixed_witness :
  draws_accepted default_parameters = true
  /\ exists a : analysis,
       fst (risk_analysis counting_gauss default_parameters 0%Z) = inr a
       /\ Z.of_nat n_simulations = 10000%Z
       /\ length (material_total a) = n_simulations
       /\ length (labor_hours_sim a) = n_simulations
       /\ length (total_quote a) = n_simulations.
Proof.
  assert (Hp : draws_accepted default_parameters = true) by reflexivity.
  split; [exact Hp|].
  exact (sample_count_fixed counting_gauss default_parameters 0%Z Hp).
Defined.


(** The deviates of [counting_gauss] repeat after eight. *)
Lemma counting_period (n : nat) (k : Z) :
  deviates counting_gauss n (k + 8)%Z = deviates counting_gauss n k.
Proof.
  revert k; induction n as [|n IH]; intros k; [reflexivity|].
  rewrite !deviates_S. cbn [counting_gauss fst snd].
  replace (k + 8 + 1)%Z with (k + 1 + 8)%Z by lia. rewrite IH.
  replace ((k + 8) mod 8)%Z with (k mod 8)%Z; [reflexivity|].
  symmetry. apply (Z.mod_add k 1 8). lia.
Qed.

Lemma cycling_advance (n : nat) (k : Z) :
  advance cycling_gauss n k = (k + Z.of_nat n)%Z.
Proof.
  revert k; induction n as [|n IH]; intros k.
  - cbn. lia.
  - rewrite advance_S, IH. cbn [cycling_gauss snd]. lia.
Qed.



(** In float64 a doubled markup still doubles that quote: multiplying by
    two only moves the exponent. *)
Example doubled_markup_doubles_quote :
  total_quote_float64 (Binary64.of_Z 3500) (Binary64.of_Z 35) 75
    (Binary64.literal 27 10) (Binary64.literal 115 100)
  = Binary64.mul (Binary64.of_Z 2)
      (total_quote_float64 (Binary64.of_Z 3500) (Binary64.of_Z 35) 75
         (Binary64.literal 135 100) (Binary64.literal 115 100)).
Proof. vm_compute. reflexivity. Qed.

(** C10 refuted as stated, in the script's float64 arithmetic: at
    material draw 3500.0 and hours draw 35.0, with labor rate 75 and profit
    margin 1.15, raising the overhead multiplier from 1.0 to 3.0 triples
    the markup product but not the quote.  The quote goes from
    7043.749999999999 to 21131.25, which is neither three times the
    former nor the float nearest to that. *)
Lemma tripled_markup_not_tripled_quote :
  let margin := Binary64.literal 115 100 in
  let quote := total_quote_float64 (Binary64.of_Z 3500) (Binary64.of_Z 35)
                 75 (Binary64.of_Z 1) margin in
  let quote' := total_quote_float64 (Binary64.of_Z 3500) (Binary64.of_Z 35)
                  75 (Binary64.of_Z 3) margin in
  Binary64.to_Q (Binary64.of_Z 3) * Binary64.to_Q margin
  == 3 * (Binary64.to_Q (Binary64.of_Z 1) * Binary64.to_Q margin)
  /\ quote = S754_finite false 7744685028147199 (-40)
  /\ Binary64.to_Q quote' == 21131.25
  /\ ~ Binary64.to_Q quote' == 3 * Binary64.to_Q quote
  /\ quote' <> Binary64.mul (Binary64.of_Z 3) quote.
Proof.
  cbv zeta. repeat split; try (vm_compute; reflexivity);
    vm_compute; discriminate.
Qed.

(** C8 at trial 0 of a run whose first deviates are -4: the material draw
    and the labor-hour draw are both negative, and so is the quote. *)
Lemma negative_draws_not_clamped_witness :
  within_declared_ranges volatile_parameters = true
  /\ exists a : analysis,
       fst (risk_analysis counting_gauss volatile_parameters 0%Z) = inr a
       /\ nth 0 (material_total a) 0 < 0
       /\ nth 0 (labor_hours_sim a) 0 < 0
       /\ nth 0 (total_quote a) 0 < 0.
Proof.
  assert (Hp : draws_accepted volatile_parameters = true) by reflexivity.
  assert (Hi : (0 < n_simulations)%nat)
    by (apply index_in_range; vm_compute; reflexivity).
  split; [reflexivity|].
  destruct (negative_draws_not_clamped counting_gauss volatile_parameters
              0%Z 0 Hp Hi) as (a & Hrun & Hformula).
  destruct (analysis_draw_nth counting_gauss volatile_parameters 0%Z a 0
              Hp Hrun Hi) as [Hm Hh].
  rewrite !counting_advance in Hm, Hh.
  assert (Hm0 : nth 0 (material_total a) 0 < 0)
    by (rewrite Hm; vm_compute; reflexivity).
  assert (Hh0 : nth 0 (labor_hours_sim a) 0 < 0)
    by (rewrite Hh; vm_compute; reflexivity).
  exists a. split; [exact Hrun|]. split; [exact Hm0|]. split; [exact Hh0|].
  destruct (Hformula (or_introl Hm0)) as [_ Hneg].
  apply Hneg; [| reflexivity | reflexivity].
  rewrite Hm, Hh. vm_compute. reflexivity.
Defined.

(** C9 at the default parameters. *)
Lemma statistics_from_single_draw_witness :
  draws_accepted default_parameters = true
  /\ exists (a : analysis) (samples : list Q),
       risk_analysis counting_gauss default_parameters 0%Z =
       (inr a, advance counting_gauss (n_simulations + n_simulations) 0%Z)
       /\ total_quote a = samples
       /\ mean_cost a = array_mean samples
       /\ median_cost a = np_percentile samples 50
       /\ p75 a = np_percentile samples 75
       /\ p90 a = np_percentile samples 90
       /\ stats_df a =
          [np_percentile samples 10; np_percentile samples 25;
           np_percentile samples 50; np_percentile samples 75;
           np_percentile samples 90].
Proof.
  assert (Hp : draws_accepted default_parameters = true) by reflexivity.
  split; [exact Hp|].
  exact (statistics_from_single_draw counting_gauss default_parameters
           0%Z Hp).
Defined.

(** C10 at the default parameters: doubling the overhead multiplier from
    1.35 to 2.7 doubles every figure. *)
Lemma quotes_scale_with_markup_witness :
  within_declared_ranges default_parameters = true
  /\ within_declared_ranges (with_markup default_parameters 2.7 1.15) = true
  /\ 2.7 * 1.15 == 2 * (1.35 * 1.15)
  /\ exists a a' : analysis,
       fst (risk_analysis counting_gauss default_parameters 0%Z) = inr a
       /\ fst (risk_analysis counting_gauss
                 (with_markup default_parameters 2.7 1.15) 0%Z) = inr a'
       /\ length (total_quote a) = n_simulations
       /\ Forall2 (scaled 2) (total_quote a) (total_quote a')
       /\ scaled 2 (mean_cost a) (mean_cost a')
       /\ scaled 2 (median_cost a) (median_cost a')
       /\ scaled 2 (p75 a) (p75 a')
       /\ scaled 2 (p90 a) (p90 a')
       /\ Forall2 (scaled 2) (stats_df a) (stats_df a').
Proof.
  assert (Hp : within_declared_ranges default_parameters = true)
    by reflexivity.
  assert (Hp' : within_declared_ranges
                  (with_markup default_parameters 2.7 1.15) = true)
    by reflexivity.
  assert (E : 2.7 * 1.15 == 2 * (1.35 * 1.15)) by reflexivity.
  split; [exact Hp|]. split; [exact Hp'|]. split; [exact E|].
  exact (quotes_scale_with_markup counting_gauss default_parameters 0%Z
           2.7 1.15 2 Hp Hp' E).
Defined.

(** * The displayed figures *)

(** ** Rounding to whole dollars *)

Lemma round_half_even_cases (x : Q) :
  let f := Qfloor x in
  let d := x - inject_Z f in
  (round_half_even x = f
   /\ (d < 1 # 2 \/ (d == 1 # 2 /\ Z.even f = true)))
  \/ (round_half_even x = (f + 1)%Z
      /\ (1 # 2 < d \/ (d == 1 # 2 /\ Z.even f = false))).
Proof.
  cbv zeta. unfold round_half_even.
  destruct (Qcompare_spec (x - inject_Z (Qfloor x)) (1 # 2)) as [E|L|G].
  - destruct (Z.even (Qfloor x)) eqn:Ev; [left | right]; auto.
  - left; auto.
  - right; auto.
Qed.

Lemma round_half_even_comp (x y : Q) :
  x == y -> round_half_even x = round_half_even y.
Proof.
  intros E. unfold round_half_even.
  rewrite (Qfloor_comp _ _ E).
  assert (E' : x - inject_Z (Qfloor y) == y - inject_Z (Qfloor y))
    by (rewrite E; reflexivity).
  now rewrite (Qcompare_comp _ _ E' _ _ (Qeq_refl (1 # 2))).
Qed.

(** The displayed whole number is within half a dollar of the figure. *)
Lemma round_half_even_near (x : Q) :
  x - (1 # 2) <= inject_Z (round_half_even x)
  /\ inject_Z (round_half_even x) <= x + (1 # 2).
Proof.
  destruct (fraction_bounds x) as [H0 H1].
  destruct (round_half_even_cases x) as [[-> H]|[-> H]].
  - split; [|lra]. destruct H as [H|[H _]]; lra.
  - rewrite inject_Z_plus. change (inject_Z 1) with 1.
    split; [lra|]. destruct H as [H|[H _]]; lra.
Qed.

Lemma round_half_even_monotone (x y : Q) :
  x <= y -> (round_half_even x <= round_half_even y)%Z.
Proof.
  intros Hxy.
  pose proof (Qfloor_resp_le _ _ Hxy) as Hf.
  destruct (round_half_even_cases x) as [[-> Hx]|[-> Hx]];
    destruct (round_half_even_cases y) as [[-> Hy]|[-> Hy]]; try lia.
  destruct (Z.eq_dec (Qfloor x) (Qfloor y)) as [E|NE]; [|lia].
  exfalso. rewrite E in Hx.
  destruct Hx as [Hx|[Hx Ex]], Hy as [Hy|[Hy Ey]]; try lra; congruence.
Qed.

Lemma round_half_even_nonneg (x : Q) :
  0 <= x -> (0 <= round_half_even x)%Z.
Proof.
  intros H. change 0%Z with (round_half_even 0).
  now apply round_half_even_monotone.
Qed.

Lemma round_half_even_nonpos (x : Q) :
  x <= 0 -> (round_half_even x <= 0)%Z.
Proof.
  intros H. change 0%Z with (round_half_even 0).
  now apply round_half_even_monotone.
Qed.

(** Rounding a difference and subtracting two rounded figures differ by
    at most one. *)
Lemma round_half_even_difference (x y : Q) :
  (Z.abs (round_half_even (x - y)
          - (round_half_even x - round_half_even y)) <= 1)%Z.
Proof.
  destruct (round_half_even_near x) as [Hx1 Hx2].
  destruct (round_half_even_near y) as [Hy1 Hy2].
  destruct (round_half_even_near (x - y)) as [Hd1 Hd2].
  set (rx := round_half_even x) in *. set (ry := round_half_even y) in *.
  set (rd := round_half_even (x - y)) in *.
  assert (H1 : inject_Z (rd - (rx - ry)) < inject_Z 2).
  { unfold Zminus. rewrite !inject_Z_plus, !inject_Z_opp, inject_Z_plus,
      inject_Z_opp. change (inject_Z 2) with 2. lra. }
  assert (H2 : inject_Z (-2) < inject_Z (rd - (rx - ry))).
  { unfold Zminus. rewrite !inject_Z_plus, !inject_Z_opp, inject_Z_plus,
      inject_Z_opp. change (inject_Z (-2)) with (-2). lra. }
  rewrite <- Zlt_Qlt in H1, H2. lia.
Qed.

(** ** Thousands separators *)

Lemma group_thousands_rev_short (ds : list ascii) :
  (length ds <= 3)%nat -> group_thousands_rev ds = ds.
Proof.
  destruct ds as [|d1 [|d2 [|d3 [|d4 rest]]]]; simpl; intros H;
    try reflexivity; lia.
Qed.

Lemma group_thousands_rev_long (d1 d2 d3 d4 : ascii) (rest : list ascii) :
  group_thousands_rev (d1 :: d2 :: d3 :: d4 :: rest)
  = d1 :: d2 :: d3 :: ","%char :: group_thousands_rev (d4 :: rest).
Proof. reflexivity. Qed.

(** Induction three digits at a time, as the grouping proceeds. *)
Lemma three_digit_induction (P : list ascii -> Prop) :
  (forall ds, (length ds <= 3)%nat -> P ds) ->
  (forall d1 d2 d3 d4 rest,
      P (d4 :: rest) -> P (d1 :: d2 :: d3 :: d4 :: rest)) ->
  forall ds, P ds.
Proof.
  intros Hshort Hlong ds.
  assert (H : forall n ds, (length ds <= n)%nat -> P ds).
  { clear ds. induction n as [|n IH]; intros ds Hn.
    - apply Hshort. lia.
    - destruct ds as [|d1 [|d2 [|d3 [|d4 rest]]]];
        try (apply Hshort; simpl; lia).
      apply Hlong, IH. simpl in *. lia. }
  now apply (H (length ds)).
Qed.

Lemma is_digit_not_comma (c : ascii) :
  is_digit c = true -> Ascii.eqb c ","%char = false.
Proof.
  intros H. apply Ascii.eqb_neq. intros ->. discriminate.
Qed.

Lemma is_digit_not_minus (c : ascii) :
  is_digit c = true -> Ascii.eqb c "-"%char = false.
Proof.
  intros H. apply Ascii.eqb_neq. intros ->. discriminate.
Qed.

Lemma filter_digits (ds : list ascii) :
  Forall (fun c => is_digit c = true) ds ->
  filter (fun c => negb (Ascii.eqb c ","%char)) ds = ds.
Proof.
  induction 1 as [|c ds Hc Hd IH]; simpl; [reflexivity|].
  now rewrite (is_digit_not_comma c Hc), IH.
Qed.

Lemma mod4_shift (n : nat) : ((4 + n) mod 4 = n mod 4)%nat.
Proof.
  replace (4 + n)%nat with (n + 1 * 4)%nat by lia.
  apply Nat.Div0.mod_add.
Qed.

(** Dropping the commas of a grouped digit sequence gives the digits
    back. *)
Lemma filter_group_thousands_rev (ds : list ascii) :
  Forall (fun c => is_digit c = true) ds ->
  filter (fun c => negb (Ascii.eqb c ","%char)) (group_thousands_rev ds) = ds.
Proof.
  induction ds as [ds Hs|d1 d2 d3 d4 rest IH] using three_digit_induction;
    intros Hd.
  - rewrite group_thousands_rev_short by exact Hs.
    now apply filter_digits.
  - rewrite group_thousands_rev_long.
    inversion Hd as [|? ? H1 Hd1]; subst.
    inversion Hd1 as [|? ? H2 Hd2]; subst.
    inversion Hd2 as [|? ? H3 Hd3]; subst.
    cbn [filter].
    rewrite (is_digit_not_comma d1 H1), (is_digit_not_comma d2 H2),
      (is_digit_not_comma d3 H3).
    cbn [negb]. rewrite Ascii.eqb_refl. cbn [negb].
    now rewrite (IH Hd3).
Qed.

(** Counted from the right, the grouped digits have a comma at every
    fourth place and a digit everywhere else, the leftmost place
    included. *)
Lemma group_thousands_rev_shape (ds : list ascii) :
  ds <> [] ->
  Forall (fun c => is_digit c = true) ds ->
  let out := group_thousands_rev ds in
  (length out mod 4 <> 0)%nat
  /\ forall i : nat,
       (i < length out)%nat ->
       if (i mod 4 =? 3)%nat then nth i out "0"%char = ","%char
       else is_digit (nth i out "0"%char) = true.
Proof.
  induction ds as [ds Hs|d1 d2 d3 d4 rest IH] using three_digit_induction;
    intros Hne Hd; cbv zeta.
  - rewrite group_thousands_rev_short by exact Hs. split.
    + destruct ds as [|d1 [|d2 [|d3 [|d4 rest]]]]; simpl in *;
        try congruence; try lia; discriminate.
    + intros i Hi.
      assert (Hi3 : (i < 3)%nat) by lia.
      rewrite Forall_forall in Hd.
      destruct i as [|[|[|i]]]; try lia; simpl;
        apply Hd, nth_In; exact Hi.
  - rewrite group_thousands_rev_long.
    inversion Hd as [|? ? H1 Hd1]; subst.
    inversion Hd1 as [|? ? H2 Hd2]; subst.
    inversion Hd2 as [|? ? H3 Hd3]; subst.
    destruct (IH ltac:(discriminate) Hd3) as [Hlen Hpos].
    set (out := group_thousands_rev (d4 :: rest)) in *.
    split.
    + change (length (d1 :: d2 :: d3 :: ","%char :: out))
        with (4 + length out)%nat.
      now rewrite mod4_shift.
    + intros i Hi.
      destruct i as [|[|[|[|i]]]]; try (simpl; assumption); [reflexivity|].
      change (nth (S (S (S (S i)))) (d1 :: d2 :: d3 :: ","%char :: out)
                "0"%char) with (nth i out "0"%char).
      replace (S (S (S (S i))) mod 4)%nat with (i mod 4)%nat.
      * apply Hpos. simpl in Hi. lia.
      * change (S (S (S (S i)))) with (4 + i)%nat.
        now rewrite mod4_shift.
Qed.

Lemma uint_digits (d : Decimal.uint) :
  Forall (fun c => is_digit c = true)
         (list_ascii_of_string (NilEmpty.string_of_uint d)).
Proof.
  induction d; simpl; constructor; auto.
Qed.

Lemma decimal_digits (n : N) :
  Forall (fun c => is_digit c = true) (list_ascii_of_string (decimal n))
  /\ list_ascii_of_string (decimal n) <> [].
Proof.
  unfold decimal.
  assert (Hn : N.to_uint n <> Decimal.Nil).
  { destruct n as [|p]; [discriminate | apply DecimalPos.Unsigned.to_uint_nonnil]. }
  pose proof (uint_digits (N.to_uint n)) as Hd.
  destruct (N.to_uint n); try congruence; split; try exact Hd;
    simpl; discriminate.
Qed.

Lemma read_decimal (n : N) :
  NilZero.uint_of_string (decimal n) = Some (N.to_uint n).
Proof.
  unfold decimal. apply NilZero.usu.
  destruct n as [|p]; [discriminate | apply DecimalPos.Unsigned.to_uint_nonnil].
Qed.

Lemma group_thousands_chars (digits : string) :
  rev (list_ascii_of_string (group_thousands digits))
  = group_thousands_rev (rev (list_ascii_of_string digits)).
Proof.
  unfold group_thousands.
  now rewrite list_ascii_of_string_of_list_ascii, rev_involutive.
Qed.

Lemma drop_commas_group_thousands (n : N) :
  drop_commas (group_thousands (decimal n)) = decimal n.
Proof.
  destruct (decimal_digits n) as [Hd _].
  unfold drop_commas.
  rewrite <- (rev_involutive (list_ascii_of_string (group_thousands _))).
  rewrite group_thousands_chars, filter_rev.
  rewrite filter_group_thousands_rev by (now apply Forall_rev).
  now rewrite rev_involutive, string_of_list_ascii_of_string.
Qed.

Lemma read_magnitude_group_thousands (n : N) :
  read_magnitude (group_thousands (decimal n)) = Some (Z.of_N n).
Proof.
  unfold read_magnitude.
  rewrite drop_commas_group_thousands, read_decimal. simpl.
  now rewrite DecimalN.Unsigned.of_to.
Qed.

(** The grouped digits begin with a digit. *)
Lemma group_thousands_head (n : N) :
  exists (c : ascii) (s : string),
    group_thousands (decimal n) = String c s /\ is_digit c = true.
Proof.
  destruct (decimal_digits n) as [Hd Hne].
  assert (Hne' : rev (list_ascii_of_string (decimal n)) <> []).
  { intros E. apply Hne. rewrite <- (rev_involutive _), E. reflexivity. }
  destruct (group_thousands_rev_shape _ Hne' (Forall_rev Hd)) as [Hlen Hpos].
  rewrite <- group_thousands_chars in Hlen, Hpos.
  destruct (group_thousands (decimal n)) as [|c s] eqn:E.
  - simpl in Hlen. congruence.
  - exists c, s. split; [reflexivity|].
    set (out := rev (list_ascii_of_string (String c s))) in *.
    assert (Hlast : nth (length out - 1) out "0"%char = c).
    { unfold out. rewrite length_rev.
      change (list_ascii_of_string (String c s))
        with (c :: list_ascii_of_string s).
      rewrite rev_nth by (simpl; lia).
      replace (_ - _)%nat with 0%nat by (simpl; lia). reflexivity. }
    assert (Hl : (0 < length out)%nat).
    { unfold out. rewrite length_rev. simpl. lia. }
    specialize (Hpos (length out - 1)%nat ltac:(lia)).
    destruct (Nat.eqb_spec ((length out - 1) mod 4) 3) as [E3|NE3].
    + exfalso. apply Hlen.
      replace (length out) with (S (length out - 1)) by lia.
      pose proof (Nat.Div0.div_mod (length out - 1) 4) as Hdm.
      rewrite E3 in Hdm.
      replace (S (length out - 1)) with ((0 + (S ((length out - 1) / 4)) * 4))%nat
        by lia.
      now rewrite Nat.Div0.mod_add.
    + now rewrite Hlast in Hpos.
Qed.

(** [f"${x:,.0f}"] read back is the figure rounded to the nearest whole
    number. *)
Lemma read_format_comma_0f (x : Q) :
  read_comma_0f (format_comma_0f x) = Some (round_half_even x).
Proof.
  unfold format_comma_0f. cbv zeta.
  destruct (Qlt_bool x 0) eqn:Hs.
  - apply Qlt_bool_true in Hs.
    pose proof (round_half_even_nonpos x (Qlt_le_weak _ _ Hs)) as Hr.
    simpl. rewrite read_magnitude_group_thousands. simpl.
    f_equal. rewrite N2Z.inj_abs_N. lia.
  - apply Qlt_bool_false in Hs.
    pose proof (round_half_even_nonneg x Hs) as Hr.
    destruct (group_thousands_head (Z.abs_N (round_half_even x)))
      as (c & s & E & Hc).
    simpl. pose proof (read_magnitude_group_thousands
                         (Z.abs_N (round_half_even x))) as Hread.
    rewrite E in *. simpl.
    rewrite (is_digit_not_minus c Hc), Hread.
    f_equal. rewrite N2Z.inj_abs_N. lia.
Qed.

Lemma read_dollars_eq (x : Q) :
  read_dollars (dollars x) = Some (round_half_even x).
Proof. unfold dollars. simpl. apply read_format_comma_0f. Qed.

Lemma read_plus_dollars_eq (x : Q) :
  read_plus_dollars (plus_dollars x) = Some (round_half_even x).
Proof. unfold plus_dollars. simpl. apply read_format_comma_0f. Qed.

(** X1: an amount displayed as [f"${x:,.0f}"] reads back as a whole
    number within half a dollar of the figure [x]. *)
Theorem displayed_amount_within_half_dollar (x : Q) :
  exists z : Z,
    read_dollars (dollars x) = Some z
    /\ x - (1 # 2) <= inject_Z z /\ inject_Z z <= x + (1 # 2).
Proof.
  exists (round_half_even x). split; [apply read_dollars_eq|].
  apply round_half_even_near.
Qed.

(** X2: displaying keeps the order of two figures: a figure that is not
    larger is never displayed as a larger amount. *)
Theorem displayed_amounts_keep_order (x y : Q) :
  x <= y ->
  exists zx zy : Z,
    read_dollars (dollars x) = Some zx
    /\ read_dollars (dollars y) = Some zy
    /\ (zx <= zy)%Z.
Proof.
  intros H. exists (round_half_even x), (round_half_even y).
  repeat split; try apply read_dollars_eq.
  now apply round_half_even_monotone.
Qed.

(** X3: [format(x, ",.0f")] is a minus sign exactly when [x] is negative
    (also when it rounds to zero), followed by digits with a comma at
    every fourth place counted from the right and a digit in the leftmost
    place. *)
Theorem format_groups_digits_in_threes (x : Q) :
  exists body : string,
    format_comma_0f x = ((if Qlt_bool x 0 then "-" else "") ++ body)%string
    /\ let out := rev (list_ascii_of_string body) in
       (length out mod 4 <> 0)%nat
       /\ forall i : nat,
            (i < length out)%nat ->
            if (i mod 4 =? 3)%nat then nth i out "0"%char = ","%char
            else is_digit (nth i out "0"%char) = true.
Proof.
  exists (group_thousands (decimal (Z.abs_N (round_half_even x)))).
  split; [reflexivity|].
  destruct (decimal_digits (Z.abs_N (round_half_even x))) as [Hd Hne].
  cbv zeta. rewrite group_thousands_chars.
  apply group_thousands_rev_shape; [|now apply Forall_rev].
  intros E. apply Hne. rewrite <- (rev_involutive _), E. reflexivity.
Qed.

(** X4: the delta shown beside a figure, [f"+${x-y:,.0f}"], and the
    difference of the two displayed figures differ by at most one
    dollar. *)
Theorem delta_within_one_of_displayed_difference (x y : Q) :
  exists zx zy zd : Z,
    read_dollars (dollars x) = Some zx
    /\ read_dollars (dollars y) = Some zy
    /\ read_plus_dollars (plus_dollars (x - y)) = Some zd
    /\ (Z.abs (zd - (zx - zy)) <= 1)%Z.
Proof.
  exists (round_half_even x), (round_half_even y), (round_half_even (x - y)).
  repeat split; try apply read_dollars_eq; try apply read_plus_dollars_eq.
  apply round_half_even_difference.
Qed.

(** The one dollar of X4 does occur: figures 1.5 and 0.5 display as $2 and
    $0, their delta as +$1. *)
Example delta_differs_by_one :
  dollars 1.5 = "$2"%string /\ dollars 0.5 = "$0"%string
  /\ plus_dollars (1.5 - 0.5) = "+$1"%string.
Proof. repeat split. Qed.

Example dollars_examples :
  dollars 9509.3 = "$9,509"%string
  /\ dollars 1234567.5 = "$1,234,568"%string
  /\ dollars 999.5 = "$1,000"%string
  /\ dollars 2.5 = "$2"%string
  /\ dollars (-0.4) = "$-0"%string
  /\ dollars (-1234.6) = "$-1,235"%string.
Proof. repeat split. Qed.

(** X2 at 9509.3 and 9509.7. *)
Lemma displayed_amounts_keep_order_witness :
  9509.3 <= 9509.7
  /\ exists zx zy : Z,
       read_dollars (dollars 9509.3) = Some zx
       /\ read_dollars (dollars 9509.7) = Some zy
       /\ (zx <= zy)%Z.
Proof.
  assert (H : 9509.3 <= 9509.7) by discriminate.
  split; [exact H|].
  exact (displayed_amounts_keep_order 9509.3 9509.7 H).
Defined.

(** ** The cost distribution chart *)

Lemma total_count_bump (x : Q) (rows : counts) :
  total_count (bump x rows) = S (total_count rows).
Proof.
  induction rows as [|[y c] rows IH]; simpl; [reflexivity|].
  destruct (Qeq_bool x y); simpl; [reflexivity|].
  rewrite IH. lia.
Qed.

Lemma total_count_fold (values : list Q) (rows : counts) :
  total_count (fold_left (fun rows x => bump x rows) values rows)
  = (length values + total_count rows)%nat.
Proof.
  revert rows; induction values as [|x values IH]; intros rows; simpl.
  - reflexivity.
  - rewrite IH, total_count_bump. lia.
Qed.

Lemma total_count_perm (rows rows' : counts) :
  Permutation rows rows' -> total_count rows = total_count rows'.
Proof.
  induction 1; simpl; lia.
Qed.

Lemma insert_by_count_perm (r : Q * nat) (rows : counts) :
  Permutation (insert_by_count r rows) (r :: rows).
Proof.
  induction rows as [|r' rows IH]; simpl.
  - apply Permutation_refl.
  - destruct (snd r' <=? snd r)%nat.
    + apply Permutation_refl.
    + eapply perm_trans; [apply perm_skip, IH | apply perm_swap].
Qed.

Lemma insert_by_index_perm (r : Q * nat) (rows : counts) :
  Permutation (insert_by_index r rows) (r :: rows).
Proof.
  induction rows as [|r' rows IH]; simpl.
  - apply Permutation_refl.
  - destruct (Qle_bool (fst r) (fst r')).
    + apply Permutation_refl.
    + eapply perm_trans; [apply perm_skip, IH | apply perm_swap].
Qed.

Lemma value_counts_perm (values : list Q) :
  Permutation (value_counts values) (tally values).
Proof.
  unfold value_counts. induction (tally values) as [|r rows IH]; simpl.
  - constructor.
  - eapply perm_trans; [apply insert_by_count_perm | now apply perm_skip].
Qed.

Lemma sort_index_perm (rows : counts) : Permutation (sort_index rows) rows.
Proof.
  induction rows as [|r rows IH]; simpl.
  - constructor.
  - eapply perm_trans; [apply insert_by_index_perm | now apply perm_skip].
Qed.

Lemma chart_perm (values : list Q) :
  Permutation (sort_index (value_counts values)) (tally values).
Proof.
  eapply perm_trans; [apply sort_index_perm | apply value_counts_perm].
Qed.

(** Pairwise different index values survive any reordering. *)
Lemma other_index_perm (rows rows' : counts) :
  Permutation rows rows' ->
  StronglySorted other_index rows -> StronglySorted other_index rows'.
Proof.
  induction 1 as [|r l l' Hp IH|r r' l|l l' l'' _ IH1 _ IH2]; intros Hs.
  - constructor.
  - inversion Hs as [|? ? Hl Hr]; subst.
    constructor; [now apply IH|].
    now apply (Permutation_Forall Hp).
  - inversion Hs as [|? ? Hl Hr]; subst.
    inversion Hl as [|? ? Hl' Hr']; subst.
    inversion Hr as [|? ? Hrr' Hr'']; subst.
    constructor; [constructor; assumption|].
    constructor; [|assumption].
    unfold other_index in *. intros E. apply Hrr'. now symmetry.
  - auto.
Qed.

Lemma bump_keys (x : Q) (rows : counts) (r : Q * nat) :
  In r (bump x rows) ->
  fst r = x \/ exists r', In r' rows /\ fst r' = fst r.
Proof.
  induction rows as [|[y c] rows IH]; simpl.
  - intros [<-|[]]. now left.
  - destruct (Qeq_bool x y); simpl.
    + intros [<-|H]; right.
      * exists (y, c). auto.
      * exists r. auto.
    + intros [<-|H].
      * right. exists (y, c). auto.
      * destruct (IH H) as [E|(r' & Hr' & E)]; [now left|].
        right. exists r'. auto.
Qed.

Lemma bump_other_index (x : Q) (rows : counts) :
  StronglySorted other_index rows -> StronglySorted other_index (bump x rows).
Proof.
  induction 1 as [|[y c] rows Hs IH Hy]; simpl.
  - repeat constructor.
  - destruct (Qeq_bool x y) eqn:E.
    + constructor; [exact Hs|]. exact Hy.
    + constructor; [exact IH|].
      rewrite Forall_forall in *. intros r Hr.
      destruct (bump_keys x rows r Hr) as [Ex|(r' & Hr' & Er')].
      * unfold other_index. simpl. rewrite Ex. intros Eq.
        assert (Qeq_bool x y = true) by (apply Qeq_bool_iff; now symmetry).
        congruence.
      * specialize (Hy r' Hr'). unfold other_index in *.
        simpl in *. now rewrite <- Er'.
Qed.

Lemma tally_other_index (values : list Q) :
  StronglySorted other_index (tally values).
Proof.
  unfold tally.
  assert (H : forall rows, StronglySorted other_index rows ->
                StronglySorted other_index
                  (fold_left (fun rows x => bump x rows) values rows)).
  { induction values as [|x values IH]; intros rows Hs; simpl; auto.
    apply IH. now apply bump_other_index. }
  apply H. constructor.
Qed.

Lemma count_of_bump (y x : Q) (rows : counts) :
  count_of y (bump x rows)
  = ((if Qeq_bool y x then 1 else 0) + count_of y rows)%nat.
Proof.
  induction rows as [|[k c] rows IH]; simpl.
  - destruct (Qeq_bool y x); reflexivity.
  - destruct (Qeq_bool x k) eqn:E; simpl.
    + apply Qeq_bool_iff in E. rewrite (Qeq_bool_comp_r y x k E).
      destruct (Qeq_bool y k); lia.
    + rewrite IH. destruct (Qeq_bool y k), (Qeq_bool y x); lia.
Qed.

Lemma count_of_tally (y : Q) (values : list Q) :
  count_of y (tally values) = occurrences y values.
Proof.
  unfold tally, occurrences.
  assert (H : forall rows,
             count_of y (fold_left (fun rows x => bump x rows) values rows)
             = (length (filter (Qeq_bool y) values) + count_of y rows)%nat).
  { induction values as [|x values IH]; intros rows; simpl; [reflexivity|].
    rewrite IH, count_of_bump.
    destruct (Qeq_bool y x); simpl; lia. }
  rewrite H. simpl. lia.
Qed.

(** With pairwise different index values, the count under an index is
    the count of its one row. *)
Lemma count_of_row (rows : counts) (y : Q) (c : nat) :
  StronglySorted other_index rows -> In (y, c) rows -> count_of y rows = c.
Proof.
  induction 1 as [|r rows Hs IH Hr]; simpl; [intros []|].
  intros [->|Hin].
  - simpl. rewrite Qeq_bool_refl.
    assert (H0 : count_of y rows = 0%nat).
    { clear IH Hs. induction Hr as [|r rows Hr _ IH']; simpl; auto.
      unfold other_index in Hr. simpl in Hr.
      destruct (Qeq_bool y (fst r)) eqn:E; [|exact IH'].
      apply Qeq_bool_iff in E. contradiction. }
    rewrite H0. lia.
  - rewrite Forall_forall in Hr. specialize (Hr _ Hin).
    unfold other_index in Hr. simpl in Hr.
    destruct (Qeq_bool y (fst r)) eqn:E.
    + apply Qeq_bool_iff in E. exfalso. apply Hr. now symmetry.
    + now apply IH.
Qed.

Lemma tally_keys (values : list Q) (r : Q * nat) :
  In r (tally values) -> In (fst r) values.
Proof.
  unfold tally.
  assert (H : forall rows,
             In r (fold_left (fun rows x => bump x rows) values rows) ->
             In (fst r) values \/ exists r', In r' rows /\ fst r' = fst r).
  { induction values as [|x values IH]; intros rows Hin; simpl in *.
    - right. exists r. auto.
    - destruct (IH _ Hin) as [H|(r' & Hr' & E)]; [auto|].
      destruct (bump_keys x rows r' Hr') as [Ex|(r'' & Hr'' & E'')].
      + left. left. congruence.
      + right. exists r''. split; [exact Hr''|congruence]. }
  intros Hin. destruct (H [] Hin) as [?|(r' & [] & _)]. assumption.
Qed.

Lemma insert_by_index_sorted (r : Q * nat) (rows : counts) :
  StronglySorted lt_index rows -> Forall (other_index r) rows ->
  StronglySorted lt_index (insert_by_index r rows).
Proof.
  induction 1 as [|r' rows Hs IH Hr']; intros Hfresh; simpl.
  - repeat constructor.
  - inversion Hfresh as [|? ? Hrr' Hfresh']; subst.
    destruct (Qle_bool (fst r) (fst r')) eqn:E.
    + apply Qle_bool_iff in E.
      assert (Hlt : fst r < fst r').
      { apply Qle_lteq in E. destruct E as [E|E]; [exact E|].
        exfalso. now apply Hrr'. }
      constructor; [now constructor|].
      constructor; [exact Hlt|].
      eapply Forall_impl; [|exact Hr'].
      intros r'' H. unfold lt_index in *. now apply Qlt_trans with (fst r').
    + apply Qle_bool_false in E.
      constructor; [now apply IH|].
      apply (Permutation_Forall (Permutation_sym (insert_by_index_perm r rows))).
      constructor; [exact E | exact Hr'].
Qed.

Lemma sort_index_sorted (rows : counts) :
  StronglySorted other_index rows -> StronglySorted lt_index (sort_index rows).
Proof.
  induction 1 as [|r rows Hs IH Hr]; simpl.
  - constructor.
  - apply insert_by_index_sorted; [exact IH|].
    now apply (Permutation_Forall (Permutation_sym (sort_index_perm rows))).
Qed.

(** A Series in strictly ascending index order is determined by its
    rows. *)
Lemma strictly_sorted_unique (rows rows' : counts) :
  StronglySorted lt_index rows -> StronglySorted lt_index rows' ->
  Permutation rows rows' -> rows = rows'.
Proof.
  intros Hs; revert rows'.
  induction Hs as [|r rows Hs IH Hr]; intros rows' Hs' Hp.
  - apply Permutation_nil in Hp. now subst.
  - destruct Hs' as [|r' rows' Hs' Hr'].
    + apply Permutation_sym, Permutation_nil in Hp. discriminate.
    + assert (E : r = r').
      { assert (Hin : In r (r' :: rows'))
          by (apply (Permutation_in _ Hp); now left).
        assert (Hin' : In r' (r :: rows))
          by (apply (Permutation_in _ (Permutation_sym Hp)); now left).
        destruct Hin as [E|Hin]; [now symmetry|].
        destruct Hin' as [E|Hin']; [exact E|].
        rewrite Forall_forall in Hr, Hr'.
        specialize (Hr _ Hin'). specialize (Hr' _ Hin).
        unfold lt_index in *. exfalso.
        apply (Qlt_irrefl (fst r)). now apply Qlt_trans with (fst r'). }
      subst r'. f_equal. apply IH; [exact Hs'|].
      now apply Permutation_cons_inv with r.
Qed.

Lemma count_of_positive (x : Q) (rows : counts) :
  (0 < count_of x rows)%nat -> exists r, In r rows /\ x == fst r.
Proof.
  induction rows as [|r rows IH]; simpl; [lia|].
  destruct (Qeq_bool x (fst r)) eqn:E.
  - intros _. exists r. split; [now left | now apply Qeq_bool_iff].
  - intros H. destruct (IH H) as (r' & Hr' & E'). exists r'. auto.
Qed.

Lemma occurrences_positive (x : Q) (values : list Q) :
  In x values -> (1 <= occurrences x values)%nat.
Proof.
  unfold occurrences. induction values as [|v values IH]; simpl; [intros []|].
  intros [->|H].
  - rewrite Qeq_bool_refl. simpl. lia.
  - specialize (IH H). destruct (Qeq_bool x v); simpl; lia.
Qed.

Lemma chart_sorted (values : list Q) :
  StronglySorted lt_index (sort_index (value_counts values)).
Proof.
  apply sort_index_sorted.
  apply (other_index_perm _ _ (Permutation_sym (value_counts_perm values))).
  apply tally_other_index.
Qed.

Lemma chart_row (values : list Q) (y : Q) (c : nat) :
  In (y, c) (sort_index (value_counts values)) ->
  In y values /\ c = occurrences y values.
Proof.
  intros Hin.
  apply (Permutation_in _ (chart_perm values)) in Hin.
  split; [apply (tally_keys values (y, c) Hin)|].
  rewrite <- count_of_tally. symmetry.
  apply count_of_row; [apply tally_other_index | exact Hin].
Qed.

Lemma occurrences_absent (y : Q) (values : list Q) :
  ~ InA Qeq y values -> occurrences y values = 0%nat.
Proof.
  unfold occurrences. induction values as [|v values IH]; simpl; auto.
  intros H. destruct (Qeq_bool y v) eqn:E.
  - exfalso. apply H. left. now apply Qeq_bool_iff.
  - apply IH. intros H'. apply H. now right.
Qed.

Lemma occurrences_nodup (y : Q) (values : list Q) :
  NoDupA Qeq values -> In y values -> occurrences y values = 1%nat.
Proof.
  induction 1 as [|v values Hv Hnd IH]; [intros []|].
  intros [->|Hin].
  - pose proof (occurrences_absent y values Hv) as H0.
    unfold occurrences in *. simpl. rewrite Qeq_bool_refl. simpl.
    now rewrite H0.
  - specialize (IH Hin). unfold occurrences in *. simpl.
    destruct (Qeq_bool y v) eqn:E; [|exact IH].
    exfalso. apply Hv. apply Qeq_bool_iff in E.
    apply InA_alt. exists y. split; [now symmetry | exact Hin].
Qed.

Lemma unit_counts (rows : counts) :
  Forall (fun r => snd r = 1%nat) rows ->
  map snd rows = repeat 1%nat (length rows)
  /\ total_count rows = length rows.
Proof.
  induction 1 as [|r rows Hr _ [IH1 IH2]]; simpl; [auto|].
  now rewrite Hr, IH1, IH2.
Qed.

(** X5: the bars of the chart account for every sample: their heights
    add up to the number of values charted. *)
Theorem chart_counts_every_sample (values : list Q) :
  total_count (sort_index (value_counts values)) = length values.
Proof.
  rewrite (total_count_perm _ _ (chart_perm values)).
  unfold tally. rewrite total_count_fold. simpl. lia.
Qed.

(** X6: the chart's index is strictly ascending, so no quote value has
    two bars. *)
Theorem chart_index_strictly_ascending (values : list Q) :
  StronglySorted lt_index (sort_index (value_counts values)).
Proof. apply chart_sorted. Qed.

(** X7: every bar stands at one of the charted values, and its height is
    the number of values equal to it, at least one. *)
Theorem chart_bar_counts_occurrences (values : list Q) (y : Q) (c : nat) :
  In (y, c) (sort_index (value_counts values)) ->
  In y values /\ c = occurrences y values /\ (1 <= c)%nat.
Proof.
  intros Hin. destruct (chart_row values y c Hin) as [Hy Hc].
  repeat split; auto. rewrite Hc. now apply occurrences_positive.
Qed.

(** X8: every charted value has a bar. *)
Theorem chart_has_bar_for_every_value (values : list Q) (x : Q) :
  In x values ->
  exists (y : Q) (c : nat),
    In (y, c) (sort_index (value_counts values)) /\ x == y.
Proof.
  intros Hx.
  pose proof (occurrences_positive x values Hx) as Hocc.
  rewrite <- count_of_tally in Hocc.
  destruct (count_of_positive x (tally values) Hocc) as ([y c] & Hin & E).
  exists y, c. split; [|exact E].
  now apply (Permutation_in _ (Permutation_sym (chart_perm values))).
Qed.

(** X9: sorting by index makes the order in which [value_counts] lists
    its rows irrelevant: any reordering of them gives the same chart. *)
Theorem chart_ignores_count_order (values : list Q) (rows : counts) :
  Permutation rows (value_counts values) ->
  sort_index rows = sort_index (value_counts values).
Proof.
  intros Hp.
  assert (Hd : StronglySorted other_index rows).
  { apply (other_index_perm (tally values)); [|apply tally_other_index].
    apply Permutation_sym.
    eapply perm_trans; [exact Hp | apply value_counts_perm]. }
  apply strictly_sorted_unique.
  - now apply sort_index_sorted.
  - apply chart_sorted.
  - eapply perm_trans; [apply sort_index_perm|].
    eapply perm_trans; [exact Hp|].
    apply Permutation_sym, sort_index_perm.
Qed.

(** X10: when no two charted values are equal, which is what continuous
    draws give, every bar has height one and there are as many bars as
    values: the chart is flat. *)
Theorem chart_of_distinct_values_is_flat (values : list Q) :
  NoDupA Qeq values ->
  map snd (sort_index (value_counts values))
  = repeat 1%nat (length values).
Proof.
  intros Hnd.
  assert (H1 : Forall (fun r => snd r = 1%nat)
                 (sort_index (value_counts values))).
  { rewrite Forall_forall. intros [y c] Hin.
    destruct (chart_row values y c Hin) as [Hy ->].
    now apply occurrences_nodup. }
  destruct (unit_counts _ H1) as [Hmap Htotal].
  rewrite Hmap. f_equal. rewrite <- Htotal.
  rewrite (total_count_perm _ _ (chart_perm values)).
  unfold tally. rewrite total_count_fold. simpl. lia.
Qed.

Example chart_example :
  sort_index (value_counts [3; 1; 3; 2; 1; 3; 0.5; 1 # 2])
  = [(0.5, 2%nat); (1, 2%nat); (2, 1%nat); (3, 3%nat)].
Proof. reflexivity. Qed.

(** X7 on four values: the bar at 3 has height 2. *)
Lemma chart_bar_counts_occurrences_witness :
  In (3, 2%nat) (sort_index (value_counts [3; 1; 3; 2]))
  /\ In 3 [3; 1; 3; 2]
  /\ 2%nat = occurrences 3 [3; 1; 3; 2] /\ (1 <= 2)%nat.
Proof.
  assert (H : In (3, 2%nat) (sort_index (value_counts [3; 1; 3; 2])))
    by (vm_compute; auto).
  split; [exact H|].
  exact (chart_bar_counts_occurrences [3; 1; 3; 2] 3 2%nat H).
Defined.

(** X8 on four values. *)
Lemma chart_has_bar_for_every_value_witness :
  In 2 [3; 1; 3; 2]
  /\ exists (y : Q) (c : nat),
       In (y, c) (sort_index (value_counts [3; 1; 3; 2])) /\ 2 == y.
Proof.
  assert (H : In 2 [3; 1; 3; 2]) by (simpl; auto).
  split; [exact H|].
  exact (chart_has_bar_for_every_value [3; 1; 3; 2] 2 H).
Defined.

(** X9 with the rows in order of first appearance. *)
Lemma chart_ignores_count_order_witness :
  Permutation (tally [1; 3; 3; 2]) (value_counts [1; 3; 3; 2])
  /\ tally [1; 3; 3; 2] <> value_counts [1; 3; 3; 2]
  /\ sort_index (tally [1; 3; 3; 2]) = sort_index (value_counts [1; 3; 3; 2]).
Proof.
  assert (H : Permutation (tally [1; 3; 3; 2]) (value_counts [1; 3; 3; 2]))
    by (apply Permutation_sym, value_counts_perm).
  split; [exact H|]. split; [discriminate|].
  exact (chart_ignores_count_order [1; 3; 3; 2] (tally [1; 3; 3; 2]) H).
Defined.

(** X10 on three different values. *)
Lemma chart_of_distinct_values_is_flat_witness :
  NoDupA Qeq [3; 1; 2]
  /\ map snd (sort_index (value_counts [3; 1; 2])) = [1; 1; 1]%nat.
Proof.
  assert (H : NoDupA Qeq [3; 1; 2]).
  { repeat constructor; intros H;
      repeat match goal with
             | H : InA _ _ _ |- _ => inversion H; clear H; subst
             end;
      discriminate. }
  split; [exact H|].
  exact (chart_of_distinct_values_is_flat [3; 1; 2] H).
Defined.

(** ** The page of one run *)

Section Page.

Context {rng_state : Type}.
Variable legacy_gauss : rng_state -> Q * rng_state.

(** The five table figures of an accepted run, in order. *)
Lemma table_figures_ordered (p : job_parameters) (s s' : rng_state)
    (a : analysis) :
  draws_accepted p = true ->
  risk_analysis legacy_gauss p s = (inr a, s') ->
  exists p10 p25 : Q,
    stats_df a = [p10; p25; median_cost a; p75 a; p90 a]
    /\ p10 <= p25 /\ p25 <= median_cost a
    /\ median_cost a <= p75 a /\ p75 a <= p90 a.
Proof.
  intros Hp Hrun.
  destruct (risk_analysis_ok legacy_gauss p s Hp)
    as (a0 & Hrun0 & _ & _ & _ & _ & _ & _ & Hmed & H75 & H90 & Hdf).
  rewrite Hrun in Hrun0. injection Hrun0 as <- _.
  destruct (analysis_lengths legacy_gauss p s _ a Hp Hrun) as (_ & _ & Hn).
  exists (np_percentile (total_quote a) 10),
    (np_percentile (total_quote a) 25).
  split; [exact Hdf|].
  rewrite Hmed, H75, H90.
  assert (Hne : (1 <= length (total_quote a))%nat)
    by (rewrite Hn; apply n_simulations_pos).
  repeat split; apply np_percentile_monotone; try exact Hne; discriminate.
Qed.


Lemma format_comma_0f_nonneg (x : Q) :
  0 <= x ->
  format_comma_0f x
  = group_thousands (decimal (Z.abs_N (round_half_even x))).
Proof.
  intros H. apply Qlt_bool_false in H.
  unfold format_comma_0f. cbv zeta. now rewrite H.
Qed.


End Page.



(** * The order statistics around the five percentiles *)

Lemma Qfloor_unique (x : Q) (k : Z) :
  inject_Z k <= x -> x < inject_Z k + 1 -> Qfloor x = k.
Proof.
  intros Hlo Hhi.
  assert (H1 : (k <= Qfloor x)%Z).
  { rewrite <- (Qfloor_Z k). now apply Qfloor_resp_le. }
  assert (H2 : (Qfloor x < k + 1)%Z).
  { rewrite Zlt_Qlt, inject_Z_plus. change (inject_Z 1) with 1.
    apply Qle_lt_trans with x; [apply Qfloor_le | exact Hhi]. }
  lia.
Qed.

(** The quantile at virtual index [k + t], with [0 <= t < 1] and [k + 1]
    a position of the array. *)
Lemma np_quantile_at (arr : list Q) (quantile : Q) (k : Z) (t : Q) :
  get_virtual_index (length arr) quantile == inject_Z k + t ->
  0 <= t -> t < 1 -> (0 <= k)%Z -> (k + 1 < Z.of_nat (length arr))%Z ->
  np_quantile arr quantile ==
  nth (Z.to_nat k) (sort arr) 0
  + (nth (Z.to_nat (k + 1)) (sort arr) 0 - nth (Z.to_nat k) (sort arr) 0) * t.
Proof.
  intros Hv Ht0 Ht1 Hk Hn.
  assert (Hf : Qfloor (get_virtual_index (length arr) quantile) = k)
    by (apply Qfloor_unique; lra).
  assert (H0 : 0 <= get_virtual_index (length arr) quantile).
  { rewrite Hv. assert (0 <= inject_Z k)
      by (change 0 with (inject_Z 0); now rewrite <- Zle_Qle). lra. }
  assert (Hin : get_virtual_index (length arr) quantile
                < inject_Z (Z.of_nat (length arr)) - 1).
  { rewrite Hv.
    assert (inject_Z (k + 1 + 1) <= inject_Z (Z.of_nat (length arr)))
      by (rewrite <- Zle_Qle; lia).
    rewrite !inject_Z_plus in H. change (inject_Z 1) with 1 in H. lra. }
  rewrite (np_quantile_inside arr quantile H0 Hin). cbv zeta.
  rewrite Hf. replace (S (Z.to_nat k)) with (Z.to_nat (k + 1)) by lia.
  setoid_replace (get_virtual_index (length arr) quantile - inject_Z k)
    with t by (rewrite Hv; ring).
  reflexivity.
Qed.

(** That quantile lies between the values at positions [k] and [k + 1] of
    the samples in ascending order, whichever way they were sorted. *)
Lemma np_quantile_bracket (arr order_statistics : list Q) (quantile : Q)
    (k : Z) (t : Q) :
  ascending arr order_statistics ->
  get_virtual_index (length arr) quantile == inject_Z k + t ->
  0 <= t -> t < 1 -> (0 <= k)%Z -> (k + 1 < Z.of_nat (length arr))%Z ->
  nth (Z.to_nat k) order_statistics 0 <= np_quantile arr quantile
  /\ np_quantile arr quantile <= nth (Z.to_nat (k + 1)) order_statistics 0.
Proof.
  intros Ha Hv Ht0 Ht1 Hk Hn.
  rewrite (np_quantile_at arr quantile k t Hv Ht0 Ht1 Hk Hn).
  rewrite !(ascending_nth arr order_statistics _ Ha).
  assert (Hab : nth (Z.to_nat k) (sort arr) 0
                <= nth (Z.to_nat (k + 1)) (sort arr) 0).
  { apply sorted_nth_le; [apply sort_sorted | lia |].
    rewrite sort_length. lia. }
  split; nra.
Qed.

Section OrderStatistics.

Context {rng_state : Type}.
Variable legacy_gauss : rng_state -> Q * rng_state.


End OrderStatistics.


(** ** An amount that rounds to zero from below *)

(** X17: an amount in [-0.5, 0) rounds to zero but keeps its sign: it is
    displayed as [$-0]. *)
Theorem small_negative_amount_shows_minus_zero (x : Q) :
  - (1 # 2) <= x -> x < 0 -> dollars x = "$-0"%string.
Proof.
  intros Hlo Hhi.
  assert (Hf : Qfloor x = (-1)%Z).
  { apply Qfloor_unique; change (inject_Z (-1)) with (-1); lra. }
  assert (Hr : round_half_even x = 0%Z).
  { unfold round_half_even. cbv zeta. rewrite Hf.
    change (inject_Z (-1)) with (-1).
    destruct (Qcompare_spec (x - -1) (1 # 2)) as [E|L|G];
      [reflexivity | lra | reflexivity]. }
  unfold dollars, format_comma_0f. cbv zeta. rewrite Hr.
  apply Qlt_bool_true in Hhi. rewrite Hhi. reflexivity.
Qed.

Lemma small_negative_amount_shows_minus_zero_witness :
  - (1 # 2) <= - (3 # 10) /\ - (3 # 10) < 0
  /\ dollars (- (3 # 10)) = "$-0"%string.
Proof.
  assert (Hlo : - (1 # 2) <= - (3 # 10)) by discriminate.
  assert (Hhi : - (3 # 10) < 0) by reflexivity.
  split; [exact Hlo|]. split; [exact Hhi|].
  exact (small_negative_amount_shows_minus_zero (- (3 # 10)) Hlo Hhi).
Defined.
